(** * Package optimizer: the catalog constructor and the dynamic program

    A shallow embedding of [internal/domain/optimizer.go] and
    [internal/domain/types.go], with the properties of the optimizer
    proved over it.

    Conventions of the embedding.
    - Go's [int] is [Z].  The program allocates a table of
      [quantity + maxPackageSize + 1] entries before it computes with
      these numbers and every number it stores is bounded by a small
      multiple of that length, so on the runs that complete no machine
      integer wraps; overflow and memory exhaustion are left out.
    - A [[]int] slice is the address of its backing array in a heap of
      integer arrays; the caller's slice, the optimizer's catalog and the
      [dp] table live there, so that writes through one slice are seen
      through every alias.  Reading or writing outside an array panics.
    - [packageCounts] is a local slice of (immutable, copied) breakdowns
      and is threaded through the loops as a list; a nil slice is [[]].
    - A Go [panic] is the outcome [Panicked]; an [error] result is a value.
*)

From stdpp Require Import base numbers list list_numbers gmap strings.
From stdpp Require Import pretty sorting.
From Stdlib Require Import Ascii.

Local Open Scope Z_scope.

(** ** Outcomes, heap and the monad of Go computations *)

Inductive outcome (A : Type) : Type :=
  | Returned (a : A)
  | Panicked (msg : string).
Global Arguments Returned {A} a.
Global Arguments Panicked {A} msg.

(** Backing arrays of [[]int] slices, by address. *)
Abbreviation heap := (gmap nat (list Z)).

(** A slice of ints: the address of its backing array (the code never
    reslices, so length and capacity are those of the array; an address
    that is not allocated is the nil slice). *)
Abbreviation slice := nat.

(** A computation runs from a heap to an outcome and the heap it leaves
    (a panic can be recovered from, so the heap after it is observable). *)
Definition go (A : Type) : Type := heap → outcome A * heap.

Global Instance go_ret : MRet go := λ A (a : A) h, (Returned a, h).

Global Instance go_bind : MBind go := λ A B (k : A → go B) (c : go A) h,
  match c h with
  | (Returned a, h') => k a h'
  | (Panicked msg, h') => (Panicked msg, h')
  end.

Definition ret {A} (a : A) : go A := mret a.

Definition panic {A} (msg : string) : go A := λ h, (Panicked msg, h).

(** [for _, x := range l] and counted loops, with the loop-carried
    locals as [s]. *)
Fixpoint forEach {A S} (l : list A) (body : A → S → go S) (s : S) : go S :=
  match l with
  | [] => ret s
  | x :: l' => s' ← body x s; forEach l' body s'
  end.

(** *** Slices of ints on the heap *)

Definition contents (h : heap) (s : slice) : list Z := h !!! s.

(** [len(s)] *)
Definition len (s : slice) : go Z := λ h,
  (Returned (Z.of_nat (length (contents h s))), h).

(** [s[i]] as an expression *)
Definition load (s : slice) (i : Z) : go Z := λ h,
  if decide (0 ≤ i) then
    match contents h s !! Z.to_nat i with
    | Some v => (Returned v, h)
    | None => (Panicked "index out of range", h)
    end
  else (Panicked "index out of range", h).

(** [s[i] = v] *)
Definition store (s : slice) (i v : Z) : go unit := λ h,
  if decide (0 ≤ i < Z.of_nat (length (contents h s))) then
    (Returned (), <[s := <[Z.to_nat i := v]> (contents h s)]> h)
  else (Panicked "index out of range", h).

(** [make([]int, n)]: a fresh zeroed array. *)
Definition make (n : Z) : go slice := λ h,
  if decide (n < 0) then (Panicked "makeslice: len out of range", h)
  else
    let a := fresh (dom h) in
    (Returned a, <[a := replicate (Z.to_nat n) 0]> h).

(** [copy(dst, src)]: the first [min(len(dst), len(src))] elements. *)
Definition copy (dst src : slice) : go Z := λ h,
  let d := contents h dst in
  let s := contents h src in
  let n := Nat.min (length d) (length s) in
  (Returned (Z.of_nat n), <[dst := take n s ++ drop n d]> h).

(** [sort.Sort(sort.Reverse(sort.IntSlice(s)))]: the library sorts the
    array in place into descending order. *)
Definition sortDescending (s : slice) : go unit := λ h,
  (Returned (), <[s := merge_sort (flip Z.le) (contents h s)]> h).

(** *** Local slices of breakdowns *)

(** [l[i]] as an expression *)
Definition index {A} (l : list A) (i : Z) : go A :=
  if decide (0 ≤ i) then
    match l !! Z.to_nat i with
    | Some v => ret v
    | None => panic "index out of range"
    end
  else panic "index out of range".

(** [l[i] = v] *)
Definition assign {A} (l : list A) (i : Z) (v : A) : go (list A) :=
  if decide (0 ≤ i < Z.of_nat (length l)) then ret (<[Z.to_nat i := v]> l)
  else panic "index out of range".

(** [make([]T, n)] for a local slice, filled with the zero value [z]. *)
Definition makeLocal {A} (z : A) (n : Z) : go (list A) :=
  if decide (n < 0) then panic "makeslice: len out of range"
  else ret (replicate (Z.to_nat n) z).

(** ** types.go *)

Record PackageCount : Type := mkPackageCount {
  Size : Z;
  Count : Z
}.

Record OptimizationResult : Type := mkOptimizationResult {
  Requested : Z;
  TotalDelivered : Z;
  OverDelivery : Z;
  Packages : gmap string Z
}.

(** A Go [error], by its message. *)
Definition error : Type := string.

(** ** optimizer.go *)

Record Optimizer : Type := mkOptimizer {
  packageSizes : slice
}.

Record solution : Type := mkSolution {
  totalDelivered : Z;
  packages : list PackageCount
}.

Definition max (a b : Z) : Z := if decide (a > b) then a else b.

Definition NewOptimizer (input : slice) : go Optimizer :=
  n ← len input;
  if decide (n = 0) then panic "package sizes cannot be empty"
  else
    forEach (seqZ 0 n) (λ j _,
      size ← load input j;
      if decide (size ≤ 0) then panic "package sizes must be positive"
      else ret ()) () ;;
    n' ← len input;
    sizes ← make n';
    copy sizes input ;;
    sortDescending sizes ;;
    ret {| packageSizes := sizes |}.

(** The loop that looks [packageSize] up in [newPackages] and increments
    its count, leaving at the first hit; [None] is [found == false]. *)
Fixpoint increment (newPackages : list PackageCount) (packageSize : Z)
    : option (list PackageCount) :=
  match newPackages with
  | [] => None
  | pkg :: rest =>
      if decide (Size pkg = packageSize)
      then Some ({| Size := Size pkg; Count := Count pkg + 1 |} :: rest)
      else (pkg ::.) <$> increment rest packageSize
  end.

(** The copy of the breakdown of [remaining] with one more [packageSize]. *)
Definition addPackage (src : list PackageCount) (packageSize : Z)
    : list PackageCount :=
  match increment src packageSize with
  | Some newPackages => newPackages
  | None => src ++ [{| Size := packageSize; Count := 1 |}]
  end.

(** The body of the loop over package sizes, for the quantity [i]. *)
Definition tryPackage (dp : slice) (quantity maxQuantity i packageSize : Z)
    (packageCounts : list (list PackageCount)) : go (list (list PackageCount)) :=
  if decide (packageSize ≤ i) then
    let remaining := i - packageSize in
    let newOverDelivery := max 0 (i - quantity) in
    reached ← load dp remaining;
    if decide (reached ≠ maxQuantity + 1) then
      let totalOverDelivery := reached + newOverDelivery in
      current ← load dp i;
      better ←
        (if decide (totalOverDelivery < current) then ret true
         else if decide (totalOverDelivery = current) then
           fromRemaining ← index packageCounts remaining;
           fromCurrent ← index packageCounts i;
           ret (bool_decide
                  (Z.of_nat (length fromRemaining) + 1
                   < Z.of_nat (length fromCurrent)))
         else ret false);
      if better : bool then
        store dp i totalOverDelivery ;;
        src ← index packageCounts remaining;
        assign packageCounts i (addPackage src packageSize)
      else ret packageCounts
    else ret packageCounts
  else ret packageCounts.

Definition findOptimalSolution (o : Optimizer) (quantity : Z) : go solution :=
  maxPackageSize ← load (packageSizes o) 0;
  let maxQuantity := quantity + maxPackageSize in
  dp ← make (maxQuantity + 1);
  packageCounts ← makeLocal [] (maxQuantity + 1);
  n ← len dp;
  forEach (seqZ 0 n) (λ i _, store dp i (maxQuantity + 1)) () ;;
  store dp 0 0 ;;
  packageCounts ← assign packageCounts 0 [];
  packageCounts ←
    forEach (seqZ 1 maxQuantity) (λ i packageCounts,
      m ← len (packageSizes o);
      forEach (seqZ 0 m) (λ j packageCounts,
        packageSize ← load (packageSizes o) j;
        tryPackage dp quantity maxQuantity i packageSize packageCounts)
        packageCounts)
      packageCounts;
  bestOverDelivery ← load dp quantity;
  best ←
    forEach (seqZ (quantity + 1) (maxQuantity - quantity))
      (λ i (best : Z * Z),
        let (bestQuantity, bestOverDelivery) := best in
        candidate ← load dp i;
        better ←
          (if decide (candidate < bestOverDelivery) then ret true
           else if decide (candidate = bestOverDelivery) then
             fromCandidate ← index packageCounts i;
             fromBest ← index packageCounts bestQuantity;
             ret (bool_decide (length fromCandidate < length fromBest)%nat)
           else ret false);
        if better : bool then ret (i, candidate) else ret best)
      (quantity, bestOverDelivery);
  chosen ← index packageCounts (fst best);
  ret {| totalDelivered := fst best; packages := chosen |}.

(** The conversion loop of [Optimize]: the breakdown into the map keyed
    by the decimal rendering of the size. *)
Definition toPackages (pkgs : list PackageCount) : gmap string Z :=
  foldl (λ m pkg,
    if decide (Count pkg > 0) then <[pretty (Size pkg) := Count pkg]> m else m)
    ∅ pkgs.

Definition Optimize (o : Optimizer) (quantity : Z)
    : go (option OptimizationResult * option error) :=
  if decide (quantity < 0) then
    ret (None, Some ("quantity must be non-negative, got " +:+ pretty quantity))
  else if decide (quantity = 0) then
    ret (Some {| Requested := 0; TotalDelivered := 0; OverDelivery := 0;
                 Packages := ∅ |}, None)
  else
    solution ← findOptimalSolution o quantity;
    ret (Some {| Requested := quantity;
                 TotalDelivered := totalDelivered solution;
                 OverDelivery := totalDelivered solution - quantity;
                 Packages := toPackages (packages solution) |}, None).

(** ** Running the program from a list of sizes *)

(** A caller's heap holding the sizes at address 0. *)
Definition callerHeap (sizes : list Z) : heap := {[ 0%nat := sizes ]}.

Definition run (sizes : list Z) (quantity : Z)
    : outcome (option OptimizationResult * option error) :=
  match NewOptimizer 0%nat (callerHeap sizes) with
  | (Returned o, h) => (Optimize o quantity h).1
  | (Panicked msg, _) => Panicked msg
  end.

(** ** The table the dynamic program builds

    [dp] and [packageCounts] side by side, and what each piece of
    [findOptimalSolution] does to them.  These definitions are the
    reading of the loops used in the proofs; [findOptimalSolution_table]
    below shows that the program computes exactly them. *)

Definition table : Type := list Z * list (list PackageCount).

Definition tryPackageT (quantity maxQuantity i : Z) (t : table)
    (packageSize : Z) : table :=
  if decide (packageSize ≤ i) then
    let remaining := Z.to_nat (i - packageSize) in
    let reached := t.1 !!! remaining in
    if decide (reached ≠ maxQuantity + 1) then
      let totalOverDelivery := reached + max 0 (i - quantity) in
      let current := t.1 !!! Z.to_nat i in
      if decide (totalOverDelivery < current
                 ∨ (totalOverDelivery = current
                    ∧ Z.of_nat (length (t.2 !!! remaining)) + 1
                      < Z.of_nat (length (t.2 !!! Z.to_nat i))))
      then (<[Z.to_nat i := totalOverDelivery]> t.1,
            <[Z.to_nat i := addPackage (t.2 !!! remaining) packageSize]> t.2)
      else t
    else t
  else t.

Definition fillRowT (sizes : list Z) (quantity maxQuantity : Z) (t : table)
    (i : Z) : table :=
  foldl (tryPackageT quantity maxQuantity i) t sizes.

Definition initT (maxQuantity : Z) : table :=
  (<[0%nat := 0]> (replicate (Z.to_nat (maxQuantity + 1)) (maxQuantity + 1)),
   replicate (Z.to_nat (maxQuantity + 1)) []).

Definition fillT (sizes : list Z) (quantity maxQuantity : Z) : table :=
  foldl (fillRowT sizes quantity maxQuantity) (initT maxQuantity)
    (seqZ 1 maxQuantity).

Definition scanStepT (t : table) (best : Z * Z) (i : Z) : Z * Z :=
  let candidate := t.1 !!! Z.to_nat i in
  if decide (candidate < best.2
             ∨ (candidate = best.2
                ∧ (length (t.2 !!! Z.to_nat i)
                   < length (t.2 !!! Z.to_nat best.1))%nat))
  then (i, candidate) else best.

Definition scanT (t : table) (quantity maxQuantity : Z) : Z * Z :=
  foldl (scanStepT t) (quantity, t.1 !!! Z.to_nat quantity)
    (seqZ (quantity + 1) (maxQuantity - quantity)).

Definition solutionT (sizes : list Z) (quantity : Z) : solution :=
  let maxQuantity := quantity + hd 0 sizes in
  let t := fillT sizes quantity maxQuantity in
  let best := scanT t quantity maxQuantity in
  {| totalDelivered := best.1; packages := t.2 !!! Z.to_nat best.1 |}.
Global Arguments solutionT : simpl never.

(** ** The vocabulary of the properties *)

(** Both columns of the table have [n] entries. *)
Definition sized (n : nat) (t : table) : Prop :=
  length t.1 = n ∧ length t.2 = n.

(** The quantity a breakdown delivers. *)
Fixpoint delivered (pkgs : list PackageCount) : Z :=
  match pkgs with
  | [] => 0
  | pkg :: rest => Size pkg * Count pkg + delivered rest
  end.

(** A breakdown of [n] over the catalog [sizes]: distinct catalog sizes,
    each with a positive count, delivering [n] in all. *)
Definition breakdown (sizes : list Z) (pkgs : list PackageCount) (n : Z) : Prop :=
  delivered pkgs = n
  ∧ NoDup (Size <$> pkgs)
  ∧ Forall (λ pkg, Size pkg ∈ sizes ∧ 0 < Count pkg) pkgs.

(** [dp[j]] and [packageCounts[j]] of a table. *)
Definition dpAt (t : table) (j : Z) : Z := t.1 !!! Z.to_nat j.
Definition countsAt (t : table) (j : Z) : list PackageCount :=
  t.2 !!! Z.to_nat j.

(** The entry for the quantity [j] once its row has been processed. *)
Record rowDone (sizes : list Z) (quantity maxQuantity : Z) (t : table)
    (j : Z) : Prop := {
  row_lower : max 0 (j - quantity) ≤ dpAt t j;
  row_upper : dpAt t j ≤ maxQuantity + 1;
  row_step p :
    p ∈ sizes → p ≤ j → dpAt t (j - p) ≠ maxQuantity + 1 →
    dpAt t j ≤ dpAt t (j - p) + max 0 (j - quantity);
  row_breakdown :
    dpAt t j ≠ maxQuantity + 1 → breakdown sizes (countsAt t j) j
}.

(** The table after the rows [1..k]. *)
Record filled (sizes : list Z) (quantity maxQuantity k : Z) (t : table)
    : Prop := {
  filled_sized : sized (Z.to_nat (maxQuantity + 1)) t;
  filled_zero : dpAt t 0 = 0;
  filled_rows j : 0 ≤ j ≤ k → rowDone sizes quantity maxQuantity t j;
  filled_rest j : k < j ≤ maxQuantity → dpAt t j = maxQuantity + 1
}.

(** The table while the row [i] is processed, [seen] being the sizes
    tried so far and [t0] the table the row started from. *)
Record rowDoing (sizes : list Z) (quantity maxQuantity : Z) (t0 : table)
    (i : Z) (seen : list Z) (t : table) : Prop := {
  doing_sized : sized (Z.to_nat (maxQuantity + 1)) t;
  doing_frame j :
    0 ≤ j → j ≠ i → dpAt t j = dpAt t0 j ∧ countsAt t j = countsAt t0 j;
  doing_lower : max 0 (i - quantity) ≤ dpAt t i;
  doing_upper : dpAt t i ≤ maxQuantity + 1;
  doing_step p :
    p ∈ seen → p ≤ i → dpAt t0 (i - p) ≠ maxQuantity + 1 →
    dpAt t i ≤ dpAt t0 (i - p) + max 0 (i - quantity);
  doing_breakdown :
    dpAt t i ≠ maxQuantity + 1 → breakdown sizes (countsAt t i) i
}.

(** The quantity delivered by [counts !! k] packages of [sizes !! k],
    for every [k]: a non-negative integer combination of the sizes. *)
Fixpoint combination (sizes : list Z) (counts : list nat) : Z :=
  match sizes, counts with
  | size :: sizes', count :: counts' =>
      size * Z.of_nat count + combination sizes' counts'
  | _, _ => 0
  end.

(** The number of packages in the combination [counts] of [sizes]. *)
Fixpoint packagesUsed (sizes : list Z) (counts : list nat) : Z :=
  match sizes, counts with
  | _ :: sizes', count :: counts' => Z.of_nat count + packagesUsed sizes' counts'
  | _, _ => 0
  end.

(** Quantities reached by adding catalog packages one at a time. *)
Inductive reachable (sizes : list Z) : Z → Prop :=
  | reachable_zero : reachable sizes 0
  | reachable_add n p :
      reachable sizes n → p ∈ sizes → reachable sizes (n + p).

(** The optimizer [o] holds the catalog [sizes] in the heap [h]: a
    non-empty array of positive sizes in descending order.  This is what
    [NewOptimizer] establishes ([NewOptimizer_catalog] below) and what
    every call of [Optimize] preserves ([Optimize_catalog]). *)
Definition catalog (o : Optimizer) (h : heap) (sizes : list Z) : Prop :=
  h !! packageSizes o = Some sizes
  ∧ sizes ≠ []
  ∧ Forall (λ p, 0 < p) sizes
  ∧ Sorted (flip Z.le) sizes.

(** The largest size of a catalog. *)
Definition largest (sizes : list Z) (M : Z) : Prop :=
  M ∈ sizes ∧ Forall (λ p, p ≤ M) sizes.

(** The result as a function of the catalog and the quantity. *)
Definition resultT (sizes : list Z) (quantity : Z)
    : option OptimizationResult * option error :=
  if decide (quantity < 0) then
    (None, Some ("quantity must be non-negative, got " +:+ pretty quantity))
  else if decide (quantity = 0) then
    (Some {| Requested := 0; TotalDelivered := 0; OverDelivery := 0;
             Packages := ∅ |}, None)
  else
    let solution := solutionT sizes quantity in
    (Some {| Requested := quantity;
             TotalDelivered := totalDelivered solution;
             OverDelivery := totalDelivered solution - quantity;
             Packages := toPackages (packages solution) |}, None).

(** The entry of the mapping written for a package count. *)
Definition entry (pkg : PackageCount) : string * Z :=
  (pretty (Size pkg), Count pkg).

(** The size a key of the mapping stands for: the key read as a decimal
    numeral. *)
Definition digit (c : Ascii.ascii) : Z := Z.of_nat (Ascii.nat_of_ascii c) - 48.

Fixpoint parseDecimal (s : string) (acc : Z) : Z :=
  match s with
  | EmptyString => acc
  | String c s' => parseDecimal s' (10 * acc + digit c)
  end.

Definition sizeOfKey (key : string) : Z := parseDecimal key 0.

(** The quantity delivered according to a packages mapping. *)
Definition deliveredByMap (m : gmap string Z) : Z :=
  foldr (λ kc acc, sizeOfKey kc.1 * kc.2 + acc) 0 (map_to_list m).

(** The number of packages according to a packages mapping. *)
Definition countByMap (m : gmap string Z) : Z :=
  foldr (λ kc acc, kc.2 + acc) 0 (map_to_list m).

(** The heaps a sequence of calls goes through. *)
Fixpoint optimizeAll (o : Optimizer) (quantities : list Z) (h : heap) : heap :=
  match quantities with
  | [] => h
  | quantity :: rest => optimizeAll o rest (Optimize o quantity h).2
  end.

Definition returns (requested delivered over : Z) (pkgs : gmap string Z)
    : outcome (option OptimizationResult * option error) :=
  Returned (Some {| Requested := requested; TotalDelivered := delivered;
                    OverDelivery := over; Packages := pkgs |}, None).

Definition exampleInput : list Z := [250; 500; 1000; 2000].
Definition exampleCatalog : list Z := [2000; 1000; 500; 250].
Definition exampleOptimizer : Optimizer := {| packageSizes := 1%nat |}.
Definition exampleHeap : heap :=
  <[1%nat := exampleCatalog]> (callerHeap exampleInput).

(** The count recorded for the size [size] in a breakdown. *)
Fixpoint countOf (pkgs : list PackageCount) (size : Z) : Z :=
  match pkgs with
  | [] => 0
  | pkg :: rest =>
      (if decide (Size pkg = size) then Count pkg else 0) + countOf rest size
  end.

(** A list without its repeated neighbours: on a sorted catalog, the
    catalog with every size kept once. *)
Fixpoint squash (sizes : list Z) : list Z :=
  match sizes with
  | [] => []
  | p :: rest =>
      match rest with
      | [] => [p]
      | p' :: _ => if decide (p = p') then squash rest else p :: squash rest
      end
  end.

(** ** Library functions of Go used by config.go and handler.go

    [strconv.Atoi] and [strings.Split] are written out from their
    documentation, for a 64-bit [int]; [strings.TrimSpace] and the text
    of the error [strconv.Atoi] returns are parameters of the functions
    that use them. *)

Definition maxInt : Z := 2 ^ 63 - 1.
Definition minInt : Z := - 2 ^ 63.

Definition isDigit (c : Ascii.ascii) : bool :=
  bool_decide (48 ≤ Ascii.nat_of_ascii c ≤ 57)%nat.

(** The value of a string of decimal digits, read after [acc]. *)
Fixpoint digitsValue (s : string) (acc : Z) : option Z :=
  match s with
  | EmptyString => Some acc
  | String c s' =>
      if isDigit c then digitsValue s' (10 * acc + digit c) else None
  end.

(** [strconv.Atoi]: an optional sign and at least one decimal digit,
    within the range of [int]; [None] is a returned error. *)
Definition Atoi (s : string) : option Z :=
  let (negative, body) :=
    match s with
    | String c rest =>
        if decide (c = "-"%char) then (true, rest)
        else if decide (c = "+"%char) then (false, rest)
        else (false, s)
    | EmptyString => (false, s)
    end in
  match body with
  | EmptyString => None
  | _ =>
      match digitsValue body 0 with
      | None => None
      | Some n =>
          let value := if negative : bool then - n else n in
          if decide (minInt ≤ value ≤ maxInt) then Some value else None
      end
  end.

(** [strings.Split(s, sep)] for a separator of one byte. *)
Fixpoint splitOn (sep : Ascii.ascii) (s : string) : list string :=
  match s with
  | EmptyString => [EmptyString]
  | String c s' =>
      if decide (c = sep) then EmptyString :: splitOn sep s'
      else
        match splitOn sep s' with
        | piece :: rest => String c piece :: rest
        | [] => [String c EmptyString]
        end
  end.

(** ** config.go *)

Module config.

Record Config : Type := mkConfig {
  Port : string;
  PackageSizes : list Z
}.

(** [os.Getenv] reads the environment, a map from names to values, and
    gives the empty string for a name that is not set. *)
Definition Getenv (env : gmap string string) (key : string) : string :=
  default EmptyString (env !! key).

Definition getEnv (env : gmap string string) (key defaultValue : string)
    : string :=
  let value := Getenv env key in
  if decide (value ≠ EmptyString) then value else defaultValue.

Section parsing.
Context (TrimSpace : string → string) (atoiError : string → error).

(** The loop of [parsePackageSizes] over the pieces, [result] being the
    sizes appended so far; [inr] is the error it returns from inside. *)
Fixpoint parsePieces (pieces : list string) (result : list Z)
    : list Z + error :=
  match pieces with
  | [] => inl result
  | sizeStr :: rest =>
      let sizeStr := TrimSpace sizeStr in
      if decide (sizeStr = EmptyString) then parsePieces rest result
      else
        match Atoi sizeStr with
        | None =>
            inr ("invalid package size '" +:+ sizeStr +:+ "': "
                 +:+ atoiError sizeStr)
        | Some size =>
            if decide (size ≤ 0)
            then inr ("package size must be positive, got " +:+ pretty size)
            else parsePieces rest (result ++ [size])
        end
  end.

Definition parsePackageSizes (sizesStr : string) : list Z * option error :=
  if decide (sizesStr = EmptyString) then
    ([], Some "package sizes cannot be empty")
  else
    let sizes := splitOn ","%char sizesStr in
    match parsePieces sizes [] with
    | inr err => ([], Some err)
    | inl result =>
        if decide (length result = 0%nat)
        then ([], Some "no valid package sizes found")
        else (result, None)
    end.

Definition Load (env : gmap string string) : option Config * option error :=
  let port := getEnv env "PORT" "8080" in
  let packageSizesStr := getEnv env "PACKAGE_SIZES" "250,500,1000,2000" in
  match parsePackageSizes packageSizesStr with
  | (_, Some err) => (None, Some ("invalid package sizes: " +:+ err))
  | (packageSizes, None) =>
      (Some {| Port := port; PackageSizes := packageSizes |}, None)
  end.

End parsing.

End config.

(** ** handler.go *)

Module api.

Record Handler : Type := mkHandler {
  optimizer : Optimizer;
  packageSizes : slice
}.

Definition NewHandler (optimizer : Optimizer) (packageSizes : slice)
    : Handler :=
  {| optimizer := optimizer; packageSizes := packageSizes |}.

(** The part of [echo.Context] the handlers read: the query parameters
    of the request, each with the values given for it. *)
Definition Context : Type := gmap string (list string).

(** [c.QueryParam(name)]: the first value, the empty string without one. *)
Definition QueryParam (c : Context) (name : string) : string :=
  match c !! name with
  | Some (value :: _) => value
  | _ => EmptyString
  end.

Definition StatusOK : Z := 200.
Definition StatusBadRequest : Z := 400.

(** What a handler answers with: the value given to [c.JSON], before it
    is marshalled, or the [echo.HTTPError] it returns. *)
Inductive body : Type :=
  | ResultBody (result : option OptimizationResult)
  | SizesBody (fields : gmap string (list Z))
  | StringsBody (fields : gmap string string).

Inductive response : Type :=
  | JSON (code : Z) (b : body)
  | HTTPError (code : Z) (message : string).

(** The answer of [CalculateHandler] and the lines it logs. *)
Definition CalculateHandler (h : Handler) (c : Context)
    : go (list string * response) :=
  let qtyStr := QueryParam c "qty" in
  if decide (qtyStr = EmptyString) then
    mret ([], HTTPError StatusBadRequest "missing 'qty' parameter")
  else
    match Atoi qtyStr with
    | None =>
        mret ([], HTTPError StatusBadRequest
                    "invalid 'qty' parameter: must be an integer")
    | Some quantity =>
        answer ← Optimize (optimizer h) quantity;
        match answer.2 with
        | Some err =>
            mret (["Optimization error: " +:+ err],
                  HTTPError StatusBadRequest ("optimization error: " +:+ err))
        | None => mret ([], JSON StatusOK (ResultBody answer.1))
        end
    end.

Definition PackageSizesHandler (h : Handler) (c : Context) : go response :=
  λ heap,
    (Returned (JSON StatusOK
                 (SizesBody {[ "package_sizes" := contents heap (packageSizes h) ]})),
     heap).

Definition HealthHandler (h : Handler) (c : Context) : go response :=
  mret (JSON StatusOK (StringsBody {[ "status" := "healthy" ]})).

End api.

(** *** Instances of the parameters, to run the functions

    [strings.TrimSpace] as it acts on ASCII strings, where the white
    space is tab, line feed, vertical tab, form feed, carriage return
    and space; and a text for the errors of [strconv.Atoi]. *)

Definition isASCIISpace (c : Ascii.ascii) : bool :=
  bool_decide (Ascii.nat_of_ascii c ∈ [9; 10; 11; 12; 13; 32]%nat).

Fixpoint trimLeft (s : string) : string :=
  match s with
  | EmptyString => EmptyString
  | String c s' => if isASCIISpace c then trimLeft s' else s
  end.

Fixpoint trimRight (s : string) : string :=
  match s with
  | EmptyString => EmptyString
  | String c s' =>
      match trimRight s' with
      | EmptyString => if isASCIISpace c then EmptyString else String c EmptyString
      | kept => String c kept
      end
  end.

Definition trimASCII (s : string) : string := trimRight (trimLeft s).

Definition exampleAtoiError (s : string) : error :=
  "strconv.Atoi: parsing '" +:+ s +:+ "': invalid syntax".

(** The pieces of a configured string that [parsePackageSizes] reads as
    sizes: the trimmed pieces that are not empty. *)
Definition keptPieces (TrimSpace : string → string) (sizesStr : string)
    : list string :=
  filter (λ piece, piece ≠ EmptyString)
    (TrimSpace <$> splitOn ","%char sizesStr).

(** [strings.Join(pieces, ",")]. *)
Fixpoint joinComma (pieces : list string) : string :=
  match pieces with
  | [] => EmptyString
  | [piece] => piece
  | piece :: rest => piece +:+ String ","%char (joinComma rest)
  end.

(** The string has no byte [c]. *)
Fixpoint lacks (c : Ascii.ascii) (s : string) : Prop :=
  match s with
  | EmptyString => True
  | String c' s' => c' ≠ c ∧ lacks c s'
  end.

(** Every byte of the string is a decimal digit. *)
Fixpoint allDigits (s : string) : Prop :=
  match s with
  | EmptyString => True
  | String c s' => isDigit c = true ∧ allDigits s'
  end.

(** The heaps a handler goes through while it serves a sequence of
    [/calculate] requests, one after the other. *)
Fixpoint serveAll (h : api.Handler) (requests : list api.Context)
    (heap0 : heap) : heap :=
  match requests with
  | [] => heap0
  | c :: rest => serveAll h rest (api.CalculateHandler h c heap0).2
  end.

(** ** Running Go computations *)

Lemma bind_Returned {A B} (c : go A) (k : A → go B) h a h' :
  c h = (Returned a, h') → (c ≫= k) h = k a h'.
Proof. unfold mbind, go_bind. by intros ->. Qed.

Lemma bind_Panicked {A B} (c : go A) (k : A → go B) h msg h' :
  c h = (Panicked msg, h') → (c ≫= k) h = (Panicked msg, h').
Proof. unfold mbind, go_bind. by intros ->. Qed.

Lemma ret_Returned {A} (a : A) h : ret a h = (Returned a, h).
Proof. done. Qed.

Lemma len_Returned s h :
  len s h = (Returned (Z.of_nat (length (contents h s))), h).
Proof. done. Qed.

Lemma load_Returned s i v h :
  0 ≤ i → contents h s !! Z.to_nat i = Some v → load s i h = (Returned v, h).
Proof. intros Hi Hv. unfold load. rewrite decide_True by done. by rewrite Hv. Qed.

Lemma store_Returned s i v h :
  0 ≤ i < Z.of_nat (length (contents h s)) →
  store s i v h = (Returned (), <[s := <[Z.to_nat i := v]> (contents h s)]> h).
Proof. intros Hi. unfold store. by rewrite decide_True. Qed.

Lemma index_Returned {A} (l : list A) i v h :
  0 ≤ i → l !! Z.to_nat i = Some v → index l i h = (Returned v, h).
Proof. intros Hi Hv. unfold index. rewrite decide_True by done. by rewrite Hv. Qed.

Lemma assign_Returned {A} (l : list A) i v h :
  0 ≤ i < Z.of_nat (length l) →
  assign l i v h = (Returned (<[Z.to_nat i := v]> l), h).
Proof. intros Hi. unfold assign. by rewrite decide_True. Qed.

Lemma forEach_cons {A S} (x : A) l (body : A → S → go S) s :
  forEach (x :: l) body s = (body x s ≫= forEach l body).
Proof. done. Qed.

Lemma forEach_seqZ_cons {S} k n (body : Z → S → go S) s :
  0 < n →
  forEach (seqZ k n) body s = (body k s ≫= forEach (seqZ (k + 1) (n - 1)) body).
Proof. intros Hn. by rewrite seqZ_cons. Qed.

(** The heap with the table [tbl] at [dp]. *)
Lemma contents_insert_eq (h : heap) s l : contents (<[s := l]> h) s = l.
Proof. unfold contents. apply lookup_total_insert_eq. Qed.

Lemma contents_insert_ne (h : heap) s s' l :
  s ≠ s' → contents (<[s := l]> h) s' = contents h s'.
Proof. unfold contents. apply lookup_total_insert_ne. Qed.

Lemma contents_Some (h : heap) s l : h !! s = Some l → contents h s = l.
Proof. unfold contents. apply lookup_total_correct. Qed.

Lemma lookup_total_Some {A} `{!Inhabited A} (l : list A) i :
  (i < length l)%nat → l !! i = Some (l !!! i).
Proof. intros Hi. by apply list_lookup_lookup_total_lt. Qed.

(** ** The program computes the table *)

Section simulation.
Context (h0 : heap) (dp : slice).

Lemma tryPackage_table quantity maxQuantity i packageSize t :
  length t.1 = length t.2 →
  0 ≤ i < Z.of_nat (length t.1) →
  0 ≤ packageSize →
  tryPackage dp quantity maxQuantity i packageSize t.2 (<[dp := t.1]> h0)
  = let t' := tryPackageT quantity maxQuantity i t packageSize in
    (Returned t'.2, <[dp := t'.1]> h0).
Proof.
  destruct t as [tbl pc]; simpl. intros Hlen Hi Hp.
  unfold tryPackage, tryPackageT; simpl.
  destruct (decide (packageSize ≤ i)) as [Hle|]; [|done].
  assert (Z.to_nat (i - packageSize) < length tbl)%nat as Hrem by lia.
  assert (Z.to_nat i < length tbl)%nat as Hi' by lia.
  erewrite bind_Returned; last first.
  { apply load_Returned; [lia|].
    rewrite contents_insert_eq. by apply lookup_total_Some. }
  destruct (decide (_ ≠ _)) as [Hreach|]; [|done].
  erewrite bind_Returned; last first.
  { apply load_Returned; [lia|].
    rewrite contents_insert_eq. by apply lookup_total_Some. }
  set (total := tbl !!! Z.to_nat (i - packageSize) + max 0 (i - quantity)).
  set (better := bool_decide (total < tbl !!! Z.to_nat i
     ∨ (total = tbl !!! Z.to_nat i
        ∧ Z.of_nat (length (pc !!! Z.to_nat (i - packageSize))) + 1
          < Z.of_nat (length (pc !!! Z.to_nat i))))).
  erewrite (bind_Returned _ _ _ better); last first.
  { subst better. destruct (decide (total < _)) as [Hlt|Hnlt].
    - rewrite bool_decide_eq_true_2 by auto. done.
    - destruct (decide (total = _)) as [Heq|Hne].
      + erewrite bind_Returned; last first.
        { apply index_Returned; [lia|]. apply lookup_total_Some. lia. }
        erewrite bind_Returned; last first.
        { apply index_Returned; [lia|]. apply lookup_total_Some. lia. }
        rewrite ret_Returned. do 2 f_equal.
        apply bool_decide_ext. intuition.
      + rewrite bool_decide_eq_false_2 by intuition. done. }
  subst better. case_bool_decide as Hb.
  - rewrite decide_True by done. simpl.
    erewrite bind_Returned; last first.
    { apply store_Returned. rewrite contents_insert_eq. lia. }
    rewrite contents_insert_eq, insert_insert_eq.
    erewrite bind_Returned; last first.
    { apply index_Returned; [lia|]. apply lookup_total_Some. lia. }
    rewrite assign_Returned by lia. done.
  - rewrite decide_False by done. done.
Qed.

Lemma tryPackageT_sized n quantity maxQuantity i t packageSize :
  sized n t → sized n (tryPackageT quantity maxQuantity i t packageSize).
Proof.
  intros [H1 H2]. unfold tryPackageT. repeat case_decide; try done.
  split; simpl; by rewrite length_insert.
Qed.

Lemma fillRowT_sized n sizes quantity maxQuantity t i :
  sized n t → sized n (fillRowT sizes quantity maxQuantity t i).
Proof.
  unfold fillRowT. revert t.
  induction sizes as [|p sizes IH]; intros t Ht; simpl; [done|].
  by apply IH, tryPackageT_sized.
Qed.

Lemma initT_sized maxQuantity :
  sized (Z.to_nat (maxQuantity + 1)) (initT maxQuantity).
Proof.
  split; simpl; by rewrite ?length_insert, length_replicate.
Qed.

(** The loop that fills [dp] with the sentinel. *)
Lemma sentinel_table v m : ∀ k l,
  length l = (k + m)%nat →
  forEach (seqZ (Z.of_nat k) (Z.of_nat m)) (λ i _, store dp i v) ()
    (<[dp := l]> h0)
  = (Returned (), <[dp := take k l ++ replicate m v]> h0).
Proof.
  induction m as [|m IH]; intros k l Hl.
  - simpl. rewrite take_ge by lia. by rewrite app_nil_r.
  - rewrite forEach_seqZ_cons by lia.
    erewrite bind_Returned; last first.
    { apply store_Returned. rewrite contents_insert_eq. lia. }
    rewrite contents_insert_eq, insert_insert_eq, Nat2Z.id.
    replace (Z.of_nat k + 1) with (Z.of_nat (S k)) by lia.
    replace (Z.of_nat (S m) - 1) with (Z.of_nat m) by lia.
    rewrite IH by (rewrite length_insert; lia).
    do 2 f_equal.
    erewrite take_S_r by (apply list_lookup_insert_eq; lia).
    rewrite take_insert_ge by lia. by rewrite <-app_assoc.
Qed.

(** The final scan over the quantities from the requested one on. *)
Lemma scan_table (t : table) n qs : ∀ best,
  sized n t →
  Forall (λ i, 0 ≤ i < Z.of_nat n) qs →
  0 ≤ best.1 < Z.of_nat n →
  forEach qs
    (λ i (best : Z * Z),
      let (bestQuantity, bestOverDelivery) := best in
      candidate ← load dp i;
      better ←
        (if decide (candidate < bestOverDelivery) then ret true
         else if decide (candidate = bestOverDelivery) then
           fromCandidate ← index t.2 i;
           fromBest ← index t.2 bestQuantity;
           ret (bool_decide (length fromCandidate < length fromBest)%nat)
         else ret false);
      if better : bool then ret (i, candidate) else ret best)
    best (<[dp := t.1]> h0)
  = (Returned (foldl (scanStepT t) best qs), <[dp := t.1]> h0)
    ∧ 0 ≤ (foldl (scanStepT t) best qs).1 < Z.of_nat n.
Proof.
  intros best Ht Hqs. revert best.
  induction Hqs as [|i qs Hi Hqs IH]; intros [bq bo] Hbest; [done|].
  destruct Ht as [Ht1 Ht2]. simpl in Hbest.
  rewrite forEach_cons. simpl foldl.
  assert (0 ≤ (scanStepT t (bq, bo) i).1 < Z.of_nat n) as Hnext.
  { unfold scanStepT. case_decide; simpl; lia. }
  erewrite bind_Returned; [by apply IH|].
  erewrite bind_Returned; last first.
  { apply load_Returned; [lia|]. rewrite contents_insert_eq.
    apply lookup_total_Some. lia. }
  unfold scanStepT; simpl.
  set (candidate := t.1 !!! Z.to_nat i).
  destruct (decide (candidate < bo)) as [Hlt|Hnlt].
  - erewrite bind_Returned by apply ret_Returned.
    by rewrite decide_True by auto.
  - destruct (decide (candidate = bo)) as [Heq|Hneq].
    + erewrite bind_Returned; last first.
      { erewrite bind_Returned; last first.
        { apply index_Returned; [lia|]. apply lookup_total_Some. lia. }
        erewrite bind_Returned; last first.
        { apply index_Returned; [lia|]. apply lookup_total_Some. lia. }
        apply ret_Returned. }
      case_bool_decide.
      * by rewrite decide_True by auto.
      * by rewrite decide_False by intuition.
    + erewrite bind_Returned by apply ret_Returned.
      by rewrite decide_False by intuition.
Qed.

Context (ps : slice) (sizes : list Z).
Hypothesis Hps : h0 !! ps = Some sizes.
Hypothesis Hne : dp ≠ ps.
Hypothesis Hpos : Forall (λ p, 0 < p) sizes.

Lemma contents_sizes tbl : contents (<[dp := tbl]> h0) ps = sizes.
Proof. rewrite contents_insert_ne by done. by apply contents_Some. Qed.

(** The loop over [range o.packageSizes], from position [length seen]. *)
Lemma rangeSizes_table quantity maxQuantity i n rest : ∀ seen t,
  sizes = seen ++ rest →
  sized n t →
  0 ≤ i < Z.of_nat n →
  forEach (seqZ (Z.of_nat (length seen)) (Z.of_nat (length rest)))
    (λ j packageCounts,
      packageSize ← load ps j;
      tryPackage dp quantity maxQuantity i packageSize packageCounts)
    t.2 (<[dp := t.1]> h0)
  = let t' := foldl (tryPackageT quantity maxQuantity i) t rest in
    (Returned t'.2, <[dp := t'.1]> h0).
Proof.
  induction rest as [|p rest IH]; intros seen t Hsizes Ht Hi; [done|].
  assert (0 < p) as Hp.
  { eapply (proj1 (Forall_forall _ _) Hpos). rewrite Hsizes.
    apply elem_of_app; right; left. }
  rewrite forEach_seqZ_cons by (simpl; lia).
  erewrite bind_Returned; last first.
  { erewrite bind_Returned; last first.
    { apply load_Returned; [lia|]. rewrite contents_sizes, Nat2Z.id.
      rewrite Hsizes. by apply list_lookup_middle. }
    destruct Ht as [Ht1 Ht2].
    apply tryPackage_table; [congruence|lia|lia]. }
  simpl foldl.
  replace (Z.of_nat (length seen) + 1) with (Z.of_nat (length (seen ++ [p])))
    by (rewrite length_app; simpl; lia).
  replace (Z.of_nat (length (p :: rest)) - 1) with (Z.of_nat (length rest))
    by (simpl; lia).
  apply IH; [by rewrite <-app_assoc|by apply tryPackageT_sized|done].
Qed.

(** One iteration of the loop over the quantities. *)
Lemma fillRow_table quantity maxQuantity i n t :
  sized n t →
  0 ≤ i < Z.of_nat n →
  (m ← len ps;
   forEach (seqZ 0 m)
     (λ j packageCounts,
       packageSize ← load ps j;
       tryPackage dp quantity maxQuantity i packageSize packageCounts)
     t.2) (<[dp := t.1]> h0)
  = let t' := fillRowT sizes quantity maxQuantity t i in
    (Returned t'.2, <[dp := t'.1]> h0).
Proof.
  intros Ht Hi. erewrite bind_Returned by apply len_Returned.
  rewrite contents_sizes.
  by apply (rangeSizes_table quantity maxQuantity i n sizes []).
Qed.

(** The loop over the quantities. *)
Lemma fill_table quantity maxQuantity n qs : ∀ t,
  sized n t →
  Forall (λ i, 0 ≤ i < Z.of_nat n) qs →
  forEach qs
    (λ i packageCounts,
      m ← len ps;
      forEach (seqZ 0 m)
        (λ j packageCounts,
          packageSize ← load ps j;
          tryPackage dp quantity maxQuantity i packageSize packageCounts)
        packageCounts)
    t.2 (<[dp := t.1]> h0)
  = let t' := foldl (fillRowT sizes quantity maxQuantity) t qs in
    (Returned t'.2, <[dp := t'.1]> h0).
Proof.
  induction qs as [|i qs IH]; intros t Ht Hqs; [done|].
  apply Forall_cons in Hqs as [Hi Hqs].
  rewrite forEach_cons.
  erewrite bind_Returned by (by eapply fillRow_table).
  simpl foldl. apply IH; [by apply fillRowT_sized|done].
Qed.

End simulation.

Lemma makeLocal_Returned {A} (z : A) n h :
  0 ≤ n → makeLocal z n h = (Returned (replicate (Z.to_nat n) z), h).
Proof. intros Hn. unfold makeLocal. by rewrite decide_False by lia. Qed.

Lemma make_Returned n (h : heap) :
  0 ≤ n →
  make n h
  = (Returned (fresh (dom h)),
     <[fresh (dom h) := replicate (Z.to_nat n) 0]> h).
Proof. intros Hn. unfold make. by rewrite decide_False by lia. Qed.

Lemma fresh_ne (h : heap) s l : h !! s = Some l → fresh (dom h) ≠ s.
Proof.
  intros Hs Heq. apply (is_fresh (dom h)). rewrite Heq.
  apply elem_of_dom. eauto.
Qed.

(** On a catalog of positive sizes the program returns, leaves the heap
    as it was but for the fresh [dp] array, and its result is read off
    the table. *)
Lemma findOptimalSolution_table o quantity (h : heap) sizes :
  h !! packageSizes o = Some sizes →
  sizes ≠ [] →
  Forall (λ p, 0 < p) sizes →
  0 ≤ quantity →
  findOptimalSolution o quantity h
  = (Returned (solutionT sizes quantity),
     <[fresh (dom h) := (fillT sizes quantity (quantity + hd 0 sizes)).1]> h).
Proof.
  intros Hps Hsizes Hpos Hq.
  destruct sizes as [|M rest] eqn:Esizes; [done|]. rewrite <-Esizes in *.
  assert (hd 0 sizes = M) as Hhd by (by rewrite Esizes).
  assert (0 < M) as HM by (rewrite Esizes in Hpos; by inversion Hpos).
  assert (fresh (dom h) ≠ packageSizes o) as Hne by (by eapply fresh_ne).
  unfold findOptimalSolution, solutionT. rewrite Hhd.
  set (maxQuantity := quantity + M).
  set (dp := fresh (dom h)).
  set (n := Z.to_nat (maxQuantity + 1)).
  erewrite bind_Returned; last first.
  { apply load_Returned; [done|]. erewrite contents_Some by done.
    by rewrite Esizes. }
  fold maxQuantity.
  erewrite bind_Returned by (apply make_Returned; lia).
  erewrite bind_Returned by (apply makeLocal_Returned; lia).
  erewrite bind_Returned by apply len_Returned.
  rewrite contents_insert_eq, length_replicate. fold dp n.
  erewrite bind_Returned; last first.
  { apply (sentinel_table h dp (maxQuantity + 1) n 0%nat).
    by rewrite length_replicate. }
  rewrite take_0, app_nil_l.
  erewrite bind_Returned; last first.
  { apply store_Returned. rewrite contents_insert_eq, length_replicate. lia. }
  rewrite contents_insert_eq, insert_insert_eq.
  erewrite bind_Returned; last first.
  { apply assign_Returned. rewrite length_replicate. lia. }
  rewrite insert_replicate. change (Z.to_nat 0) with 0%nat.
  pose proof (initT_sized maxQuantity) as Hinit. fold n in Hinit.
  erewrite bind_Returned; last first.
  { apply (fill_table h dp (packageSizes o) sizes Hps Hne Hpos
             quantity maxQuantity n (seqZ 1 maxQuantity) (initT maxQuantity));
      [done|].
    apply Forall_seqZ. lia. }
  cbv zeta. fold (fillT sizes quantity maxQuantity).
  set (t := fillT sizes quantity maxQuantity).
  assert (sized n t) as Ht.
  { subst t. unfold fillT. generalize (seqZ 1 maxQuantity).
    intros qs. revert Hinit. generalize (initT maxQuantity).
    induction qs as [|i qs IH]; intros t0 Ht0; [done|].
    simpl. by apply IH, fillRowT_sized. }
  erewrite bind_Returned; last first.
  { apply load_Returned; [done|]. rewrite contents_insert_eq.
    apply lookup_total_Some. destruct Ht. lia. }
  destruct (scan_table h dp t n
              (seqZ (quantity + 1) (maxQuantity - quantity))
              (quantity, t.1 !!! Z.to_nat quantity) Ht) as [Hscan Hbest].
  { apply Forall_seqZ. lia. }
  { simpl. lia. }
  erewrite bind_Returned by exact Hscan.
  fold (scanT t quantity maxQuantity) in Hbest |- *.
  erewrite bind_Returned; last first.
  { apply index_Returned; [lia|]. apply lookup_total_Some. destruct Ht. lia. }
  done.
Qed.

(** ** Breakdowns *)

Lemma delivered_app pkgs1 pkgs2 :
  delivered (pkgs1 ++ pkgs2) = delivered pkgs1 + delivered pkgs2.
Proof. induction pkgs1 as [|pkg pkgs1 IH]; simpl; lia. Qed.

Lemma increment_Some pkgs p pkgs' :
  increment pkgs p = Some pkgs' →
  delivered pkgs' = delivered pkgs + p
  ∧ Size <$> pkgs' = Size <$> pkgs
  ∧ ∀ P : Z → Z → Prop,
      (∀ c, P p c → P p (c + 1)) →
      Forall (λ pkg, P (Size pkg) (Count pkg)) pkgs →
      Forall (λ pkg, P (Size pkg) (Count pkg)) pkgs'.
Proof.
  revert pkgs'. induction pkgs as [|pkg pkgs IH]; intros pkgs' Hinc; [done|].
  simpl in Hinc. destruct (decide (Size pkg = p)) as [Hp|Hp].
  - injection Hinc as <-. simpl. repeat split; [lia|].
    intros P HP Hall. apply Forall_cons in Hall as [Hpkg Hall].
    constructor; [|done]. simpl. rewrite Hp in *. by apply HP.
  - destruct (increment pkgs p) as [l|] eqn:Hl; [|done].
    injection Hinc as <-. destruct (IH l eq_refl) as (Hd & Hs & HP).
    split; [simpl; lia|]. split; [by rewrite !fmap_cons, Hs|].
    intros P HP' Hall. apply Forall_cons in Hall as [Hpkg Hall].
    constructor; [done|]. by apply HP.
Qed.

Lemma increment_None pkgs p :
  increment pkgs p = None → p ∉ Size <$> pkgs.
Proof.
  induction pkgs as [|pkg pkgs IH]; simpl; intros Hinc.
  - apply not_elem_of_nil.
  - destruct (decide (Size pkg = p)) as [Hp|Hp]; [done|].
    destruct (increment pkgs p); [done|].
    apply not_elem_of_cons. split; [done|]. by apply IH.
Qed.

Lemma addPackage_breakdown sizes pkgs n p :
  breakdown sizes pkgs n →
  p ∈ sizes →
  breakdown sizes (addPackage pkgs p) (n + p).
Proof.
  intros (Hd & Hnd & Hall) Hp. unfold addPackage.
  destruct (increment pkgs p) as [pkgs'|] eqn:Hinc.
  - destruct (increment_Some _ _ _ Hinc) as (Hd' & Hs & HP).
    split; [lia|]. split; [by rewrite Hs|].
    apply (HP (λ s c, s ∈ sizes ∧ 0 < c)); [|done].
    intros c [? ?]. split; [done|lia].
  - apply increment_None in Hinc.
    split; [rewrite delivered_app; simpl; lia|].
    split.
    + rewrite fmap_app. apply NoDup_app. split; [done|]. split.
      * intros x Hx. simpl. intros ->%list_elem_of_singleton. done.
      * apply NoDup_singleton.
    + apply Forall_app. split; [done|]. by repeat constructor.
Qed.

Lemma breakdown_nil sizes : breakdown sizes [] 0.
Proof. split; [done|]. split; [apply NoDup_nil_2|constructor]. Qed.

(** ** What the filled table holds *)

Section table.
Context (sizes : list Z) (quantity maxQuantity : Z).
Hypothesis Hpos : Forall (λ p, 0 < p) sizes.
Hypothesis Hquantity : 0 ≤ quantity.
Hypothesis HmaxQuantity : 0 ≤ maxQuantity.

Local Abbreviation n := (Z.to_nat (maxQuantity + 1)).
Local Abbreviation unreachable := (maxQuantity + 1).

Lemma max_nonneg a : 0 ≤ max 0 a.
Proof. unfold max. case_decide; lia. Qed.

Lemma max_le a : a ≤ max 0 a.
Proof. unfold max. case_decide; lia. Qed.

Lemma dpAt_insert (t : table) i j v pkgs :
  sized n t → 0 ≤ i < Z.of_nat n → 0 ≤ j →
  dpAt (<[Z.to_nat i := v]> t.1, <[Z.to_nat i := pkgs]> t.2) j
  = if decide (i = j) then v else dpAt t j.
Proof.
  intros [H1 H2] Hi Hj. unfold dpAt; simpl. case_decide as Hij.
  - subst j. apply list_lookup_total_insert_eq. lia.
  - apply list_lookup_total_insert_ne. lia.
Qed.

Lemma countsAt_insert (t : table) i j v pkgs :
  sized n t → 0 ≤ i < Z.of_nat n → 0 ≤ j →
  countsAt (<[Z.to_nat i := v]> t.1, <[Z.to_nat i := pkgs]> t.2) j
  = if decide (i = j) then pkgs else countsAt t j.
Proof.
  intros [H1 H2] Hi Hj. unfold countsAt; simpl. case_decide as Hij.
  - subst j. apply list_lookup_total_insert_eq. lia.
  - apply list_lookup_total_insert_ne. lia.
Qed.

Lemma doing_more t0 i seen t p :
  rowDoing sizes quantity maxQuantity t0 i seen t →
  (p ≤ i → dpAt t0 (i - p) ≠ unreachable →
   dpAt t i ≤ dpAt t0 (i - p) + max 0 (i - quantity)) →
  rowDoing sizes quantity maxQuantity t0 i (seen ++ [p]) t.
Proof.
  intros [] Hp. split; try done.
  intros p' [Hin| ->%list_elem_of_singleton]%elem_of_app; auto.
Qed.

Lemma tryPackageT_doing t0 i seen t p :
  1 ≤ i ≤ maxQuantity →
  filled sizes quantity maxQuantity (i - 1) t0 →
  rowDoing sizes quantity maxQuantity t0 i seen t →
  p ∈ sizes →
  rowDoing sizes quantity maxQuantity t0 i (seen ++ [p])
    (tryPackageT quantity maxQuantity i t p).
Proof.
  intros Hi Hfilled Hdoing Hp.
  assert (0 < p) as Hp0 by (by eapply (proj1 (Forall_forall _ _) Hpos)).
  unfold tryPackageT.
  destruct (decide (p ≤ i)) as [Hle|Hgt];
    [|apply doing_more; [done|lia]].
  fold (dpAt t (i - p)) (dpAt t i) (countsAt t (i - p)) (countsAt t i).
  destruct (doing_frame _ _ _ _ _ _ _ Hdoing (i - p)) as [Hdp Hcounts]; [lia..|].
  rewrite Hdp, Hcounts.
  destruct (decide (dpAt t0 (i - p) ≠ unreachable)) as [Hreach|Hunreach];
    [|apply doing_more; [done|intros _ Hr; by destruct Hunreach]].
  destruct (decide _) as [Hbetter|Hworse];
    [|apply doing_more; [done|lia]].
  assert (rowDone sizes quantity maxQuantity t0 (i - p)) as Hrem
    by (apply (filled_rows _ _ _ _ _ Hfilled); lia).
  pose proof (row_lower _ _ _ _ _ Hrem) as Hlow.
  pose proof (max_nonneg (i - p - quantity)) as Hnn.
  destruct Hdoing as [Hsized Hframe Hlower Hupper Hstep Hbreak].
  assert (0 ≤ i < Z.of_nat n) as Hin by lia.
  split.
  - destruct Hsized. split; simpl; by rewrite length_insert.
  - intros j Hj Hji.
    rewrite dpAt_insert, countsAt_insert by done.
    rewrite !decide_False by done. by apply Hframe.
  - rewrite dpAt_insert, decide_True by (done || lia). lia.
  - rewrite dpAt_insert, decide_True by (done || lia). lia.
  - rewrite dpAt_insert, decide_True by (done || lia).
    intros p' [Hin'| ->%list_elem_of_singleton]%elem_of_app Hle' Hreach'.
    + specialize (Hstep p' Hin' Hle' Hreach'). lia.
    + lia.
  - intros _. rewrite countsAt_insert, decide_True by (done || lia).
    replace i with (i - p + p) at 2 by lia.
    apply addPackage_breakdown; [|done].
    by apply (row_breakdown _ _ _ _ _ Hrem).
Qed.

Lemma fillRowT_doing t0 i rest : ∀ seen t,
  1 ≤ i ≤ maxQuantity →
  filled sizes quantity maxQuantity (i - 1) t0 →
  rowDoing sizes quantity maxQuantity t0 i seen t →
  Forall (.∈ sizes) rest →
  rowDoing sizes quantity maxQuantity t0 i (seen ++ rest)
    (foldl (tryPackageT quantity maxQuantity i) t rest).
Proof.
  induction rest as [|p rest IH]; intros seen t Hi Hfilled Hdoing Hsub.
  - by rewrite app_nil_r.
  - apply Forall_cons in Hsub as [Hp Hsub].
    simpl. rewrite cons_middle, app_assoc.
    apply IH; [done..| |done]. by apply tryPackageT_doing.
Qed.

Lemma fillRowT_filled t0 i :
  1 ≤ i ≤ maxQuantity →
  filled sizes quantity maxQuantity (i - 1) t0 →
  filled sizes quantity maxQuantity i (fillRowT sizes quantity maxQuantity t0 i).
Proof.
  intros Hi Hfilled. unfold fillRowT.
  assert (rowDoing sizes quantity maxQuantity t0 i [] t0) as Hstart.
  { split; try done.
    - by destruct Hfilled.
    - rewrite (filled_rest _ _ _ _ _ Hfilled) by lia.
      unfold max. case_decide; lia.
    - rewrite (filled_rest _ _ _ _ _ Hfilled) by lia. done.
    - intros p Hp. by apply elem_of_nil in Hp.
    - intros Hreach. destruct Hreach. apply (filled_rest _ _ _ _ _ Hfilled). lia. }
  pose proof (fillRowT_doing t0 i sizes [] t0 Hi Hfilled Hstart
                (proj2 (Forall_forall _ _) (λ _ H, H))) as Hend.
  simpl in Hend. set (t := foldl _ t0 sizes) in *.
  destruct Hend as [Hsized Hframe Hlower Hupper Hstep Hbreak].
  split.
  - done.
  - destruct (Hframe 0) as [-> _]; [lia..|]. by destruct Hfilled.
  - intros j Hj. destruct (decide (j = i)) as [->|Hji].
    + split; try done. intros p Hp Hle.
      assert (0 < p) by (by eapply (proj1 (Forall_forall _ _) Hpos)).
      destruct (Hframe (i - p)) as [-> _]; [lia..|]. by apply Hstep.
    + destruct (filled_rows _ _ _ _ _ Hfilled j) as [Hl Hu Hs Hb]; [lia|].
      destruct (Hframe j) as [Hdp Hcounts]; [lia..|].
      split; rewrite ?Hdp, ?Hcounts; try done.
      intros p Hp Hle.
      assert (0 < p) by (by eapply (proj1 (Forall_forall _ _) Hpos)).
      destruct (Hframe (j - p)) as [-> _]; [lia..|]. by apply Hs.
  - intros j Hj. destruct (Hframe j) as [-> _]; [lia..|].
    apply (filled_rest _ _ _ _ _ Hfilled). lia.
Qed.

Lemma initT_filled : filled sizes quantity maxQuantity 0 (initT maxQuantity).
Proof.
  assert (dpAt (initT maxQuantity) 0 = 0) as Hzero.
  { unfold dpAt, initT; simpl. apply list_lookup_total_insert_eq.
    rewrite length_replicate. lia. }
  split.
  - apply initT_sized.
  - done.
  - intros j Hj. assert (j = 0) as -> by lia. split.
    + rewrite Hzero. unfold max. case_decide; lia.
    + rewrite Hzero. lia.
    + intros p Hp Hle.
      assert (0 < p) by (by eapply (proj1 (Forall_forall _ _) Hpos)). lia.
    + intros _. unfold countsAt, initT; simpl.
      rewrite lookup_total_replicate_2 by lia. apply breakdown_nil.
  - intros j Hj. unfold dpAt, initT; simpl.
    rewrite list_lookup_total_insert_ne by lia.
    apply lookup_total_replicate_2. lia.
Qed.

Lemma fillT_filled :
  filled sizes quantity maxQuantity maxQuantity
    (fillT sizes quantity maxQuantity).
Proof.
  unfold fillT.
  cut (∀ k : nat, Z.of_nat k ≤ maxQuantity →
         filled sizes quantity maxQuantity (Z.of_nat k)
           (foldl (fillRowT sizes quantity maxQuantity) (initT maxQuantity)
              (seqZ 1 (Z.of_nat k)))).
  { intros Hk. specialize (Hk (Z.to_nat maxQuantity)).
    rewrite Z2Nat.id in Hk by done. apply Hk. lia. }
  induction k as [|k IH]; intros Hk.
  - apply initT_filled.
  - rewrite seqZ_S, foldl_app. simpl foldl.
    replace (1 + Z.of_nat k) with (Z.of_nat (S k)) by lia.
    apply fillRowT_filled; [lia|].
    replace (Z.of_nat (S k) - 1) with (Z.of_nat k) by lia.
    apply IH. lia.
Qed.
(** Every entry of the filled table lies between 0 and the sentinel, so
the numbers the program stores never exceed the length of the table. *)
Lemma fillT_bounded j :
  0 ≤ j ≤ maxQuantity →
  0 ≤ dpAt (fillT sizes quantity maxQuantity) j ≤ unreachable.
Proof.
  intros Hj. destruct (filled_rows _ _ _ _ _ fillT_filled j Hj) as [Hl Hu _ _].
  pose proof (max_nonneg (j - quantity)). lia.
Qed.
End table.

(** ** Deliverable quantities *)

Lemma reachable_add_many sizes n p (c : nat) :
  reachable sizes n → p ∈ sizes → reachable sizes (n + p * Z.of_nat c).
Proof.
  intros Hn Hp. induction c as [|c IH].
  - by replace (n + p * Z.of_nat 0) with n by lia.
  - replace (n + p * Z.of_nat (S c)) with (n + p * Z.of_nat c + p) by lia.
    by constructor.
Qed.



Lemma reachable_nonneg sizes n :
  Forall (λ p, 0 < p) sizes → reachable sizes n → 0 ≤ n.
Proof.
  intros Hpos Hn. induction Hn as [|n p Hn IH Hp]; [done|].
  assert (0 < p) by (by eapply (proj1 (Forall_forall _ _) Hpos)). lia.
Qed.

(** ** The quantity the scan selects *)

Section optimum.
Context (sizes : list Z) (quantity M : Z).
Hypothesis Hpos : Forall (λ p, 0 < p) sizes.
Hypothesis Hquantity : 0 < quantity.
Hypothesis HM : M ∈ sizes.
Hypothesis Hlargest : Forall (λ p, p ≤ M) sizes.

Local Abbreviation maxQuantity := (quantity + M).
Local Abbreviation unreachable := (maxQuantity + 1).
Local Abbreviation t := (fillT sizes quantity maxQuantity).

Lemma M_pos : 0 < M.
Proof. by eapply (proj1 (Forall_forall _ _) Hpos). Qed.

Lemma t_filled : filled sizes quantity maxQuantity maxQuantity t.
Proof. pose proof M_pos. apply fillT_filled; [done|lia..]. Qed.

(** Up to the requested quantity, a reachable entry costs nothing. *)
Lemma reachable_exact m :
  reachable sizes m → m ≤ quantity → dpAt t m = 0.
Proof.
  pose proof M_pos as HM0. pose proof t_filled as Hfilled.
  intros Hm. induction Hm as [|m p Hm IH Hp]; intros Hle.
  - apply (filled_zero _ _ _ _ _ Hfilled).
  - assert (0 < p) by (by eapply (proj1 (Forall_forall _ _) Hpos)).
    pose proof (reachable_nonneg _ _ Hpos Hm).
    specialize (IH ltac:(lia)).
    destruct (filled_rows _ _ _ _ _ Hfilled (m + p)) as [Hl _ Hs _]; [lia|].
    specialize (Hs p Hp ltac:(lia)).
    replace (m + p - p) with m in Hs by lia. rewrite IH in Hs.
    specialize (Hs ltac:(lia)).
    pose proof (max_nonneg (m + p - quantity)).
    unfold max in *. case_decide; lia.
Qed.

(** Below every reachable quantity that covers the request lies an
    entry whose cost is its own excess. *)
Lemma reachable_over D :
  reachable sizes D → quantity ≤ D →
  ∃ j, quantity ≤ j ≤ D ∧ j ≤ maxQuantity ∧ dpAt t j ≤ j - quantity.
Proof.
  pose proof M_pos as HM0. pose proof t_filled as Hfilled.
  intros HD. induction HD as [|m p Hm IH Hp]; intros Hle; [lia|].
  assert (0 < p) by (by eapply (proj1 (Forall_forall _ _) Hpos)).
  assert (p ≤ M) by (by eapply (proj1 (Forall_forall _ _) Hlargest)).
  pose proof (reachable_nonneg _ _ Hpos Hm).
  destruct (decide (quantity ≤ m)) as [Hqm|Hqm].
  - destruct (IH Hqm) as (j & Hj & Hjmax & Hdp). exists j. lia.
  - exists (m + p). split; [lia|]. split; [lia|].
    destruct (filled_rows _ _ _ _ _ Hfilled (m + p)) as [_ _ Hs _]; [lia|].
    specialize (Hs p Hp ltac:(lia)).
    replace (m + p - p) with m in Hs by lia.
    rewrite (reachable_exact m) in Hs by (done || lia).
    specialize (Hs ltac:(lia)).
    unfold max in Hs. case_decide; lia.
Qed.

(** Some multiple of the largest size covers the request with an
    excess below that size. *)
Lemma reachable_multiple :
  ∃ D, reachable sizes D ∧ quantity ≤ D ≤ quantity + M - 1.
Proof.
  pose proof M_pos as HM0.
  set (k := (quantity + M - 1) `div` M).
  assert (0 ≤ k) by (apply Z.div_pos; lia).
  exists (M * k). split.
  - replace (M * k) with (0 + M * Z.of_nat (Z.to_nat k)) by lia.
    apply reachable_add_many; [constructor|done].
  - pose proof (Z.div_mod (quantity + M - 1) M ltac:(lia)) as Hdm.
    pose proof (Z.mod_pos_bound (quantity + M - 1) M HM0) as Hmod.
    fold k in Hdm. lia.
Qed.

(** The scan keeps an entry of least cost among those seen. *)
Lemma scanT_least :
  let best := scanT t quantity maxQuantity in
  quantity ≤ best.1 ≤ maxQuantity
  ∧ ∀ j, quantity ≤ j ≤ maxQuantity → dpAt t best.1 ≤ dpAt t j.
Proof.
  pose proof M_pos as HM0. unfold scanT.
  replace (quantity + M - quantity) with (Z.of_nat (Z.to_nat M)) by lia.
  cut (∀ k : nat,
         let best := foldl (scanStepT t)
                       (quantity, t.1 !!! Z.to_nat quantity)
                       (seqZ (quantity + 1) (Z.of_nat k)) in
         quantity ≤ best.1 ≤ quantity + Z.of_nat k
         ∧ best.2 = dpAt t best.1
         ∧ ∀ j, quantity ≤ j ≤ quantity + Z.of_nat k →
                dpAt t best.1 ≤ dpAt t j).
  { intros Hk. destruct (Hk (Z.to_nat M)) as (Hb & _ & Hleast).
    simpl. split; [lia|]. intros j Hj. apply Hleast. lia. }
  induction k as [|k IH].
  - simpl. split; [lia|]. split; [done|].
    intros j Hj. by replace j with quantity by lia.
  - rewrite seqZ_S, foldl_app. simpl foldl.
    set (best := foldl _ _ (seqZ _ (Z.of_nat k))) in *.
    simpl in IH. destruct IH as (Hb & Hcost & Hleast).
    unfold scanStepT. fold (dpAt t (quantity + 1 + Z.of_nat k)).
    simpl. case_decide as Hbetter; simpl.
    + split; [lia|]. split; [done|]. intros j Hj.
      destruct (decide (j = quantity + 1 + Z.of_nat k)) as [->|Hne]; [done|].
      specialize (Hleast j ltac:(lia)). lia.
    + split; [lia|]. split; [done|]. intros j Hj.
      destruct (decide (j = quantity + 1 + Z.of_nat k)) as [->|Hne].
      * lia.
      * apply Hleast. lia.
Qed.

(** The selected quantity is the least reachable one that covers the
    request, it exceeds it by less than the largest size, and its
    entry holds a breakdown of it. *)
Theorem solutionT_optimal :
  hd 0 sizes = M →
  let sol := solutionT sizes quantity in
  quantity ≤ totalDelivered sol ≤ quantity + M - 1
  ∧ breakdown sizes (packages sol) (totalDelivered sol)
  ∧ ∀ D, reachable sizes D → quantity ≤ D → totalDelivered sol ≤ D.
Proof.
  intros Hhd. unfold solutionT. rewrite Hhd. simpl.
  pose proof M_pos as HM0. pose proof t_filled as Hfilled.
  destruct scanT_least as [Hbest Hleast].
  set (best := scanT t quantity maxQuantity) in *.
  destruct (filled_rows _ _ _ _ _ Hfilled best.1) as [Hl _ _ Hb]; [lia|].
  pose proof (max_le (best.1 - quantity)) as Hexcess.
  assert (∀ D, reachable sizes D → quantity ≤ D → best.1 ≤ D) as Hopt.
  { intros D HD Hle.
    destruct (reachable_over D HD Hle) as (j & Hj & Hjmax & Hdp).
    specialize (Hleast j ltac:(lia)). lia. }
  destruct reachable_multiple as (D0 & HD0 & Hrange).
  pose proof (Hopt D0 HD0 ltac:(lia)) as Hbound.
  split; [lia|]. split; [|done].
  apply Hb.
  destruct (reachable_over D0 HD0 ltac:(lia)) as (j & Hj & Hjmax & Hdp).
  specialize (Hleast j ltac:(lia)). fold (dpAt t best.1) in *. lia.
Qed.
End optimum.

(** ** The constructor *)

Global Instance flip_le_total : Total (flip Z.le).
Proof. intros x y. unfold flip. lia. Qed.

Global Instance flip_le_trans : Transitive (flip Z.le).
Proof. intros x y z. unfold flip. lia. Qed.

(** The validation loop, from position [length seen]. *)
Lemma validate_sizes input (h : heap) sizes rest : ∀ seen,
  contents h input = sizes →
  sizes = seen ++ rest →
  forEach (seqZ (Z.of_nat (length seen)) (Z.of_nat (length rest)))
    (λ j _,
      size ← load input j;
      if decide (size ≤ 0) then panic "package sizes must be positive"
      else ret ()) () h
  = if decide (Forall (λ p, 0 < p) rest) then (Returned (), h)
    else (Panicked "package sizes must be positive", h).
Proof.
  induction rest as [|p rest IH]; intros seen Hcontents Hsizes.
  - by rewrite decide_True by constructor.
  - rewrite forEach_seqZ_cons by (simpl; lia).
    replace (Z.of_nat (length seen) + 1) with (Z.of_nat (length (seen ++ [p])))
      by (rewrite length_app; simpl; lia).
    replace (Z.of_nat (length (p :: rest)) - 1) with (Z.of_nat (length rest))
      by (simpl; lia).
    assert (load input (Z.of_nat (length seen)) h = (Returned p, h)) as Hload.
    { apply load_Returned; [lia|]. rewrite Hcontents, Hsizes, Nat2Z.id.
      by apply list_lookup_middle. }
    destruct (decide (p ≤ 0)) as [Hp|Hp].
    + erewrite bind_Panicked; last first.
      { erewrite bind_Returned by exact Hload. by rewrite decide_True. }
      rewrite decide_False; [done|].
      intros [? _]%Forall_cons. lia.
    + erewrite bind_Returned; last first.
      { erewrite bind_Returned by exact Hload. by rewrite decide_False. }
      rewrite IH by (by rewrite <-?app_assoc).
      destruct (decide (Forall _ rest)) as [Hrest|Hrest].
      * rewrite decide_True; [done|]. constructor; [lia|done].
      * rewrite decide_False; [done|]. by intros [_ ?]%Forall_cons.
Qed.

(** What the constructor does, for every input slice. *)
Theorem NewOptimizer_spec input (h : heap) :
  let sizes := contents h input in
  NewOptimizer input h
  = if decide (sizes = []) then (Panicked "package sizes cannot be empty", h)
    else if decide (Forall (λ p, 0 < p) sizes) then
      (Returned {| packageSizes := fresh (dom h) |},
       <[fresh (dom h) := merge_sort (flip Z.le) sizes]> h)
    else (Panicked "package sizes must be positive", h).
Proof.
  intros sizes. unfold NewOptimizer.
  erewrite bind_Returned by apply len_Returned. fold sizes.
  destruct (decide (sizes = [])) as [Hnil|Hnil].
  { rewrite decide_True; [done|]. by rewrite Hnil. }
  rewrite decide_False by (destruct sizes; [done|simpl; lia]).
  pose proof (validate_sizes input h sizes sizes [] eq_refl eq_refl) as Hloop.
  simpl length in Hloop. change (Z.of_nat 0) with 0 in Hloop.
  destruct (decide (Forall _ sizes)) as [Hpos|Hpos].
  - erewrite bind_Returned by exact Hloop.
    erewrite bind_Returned by apply len_Returned. fold sizes.
    erewrite bind_Returned by (apply make_Returned; lia).
    assert (is_Some (h !! input)) as [l Hl].
    { destruct (h !! input) as [l|] eqn:Hin; [by eexists|].
      destruct Hnil. unfold sizes, contents.
      by rewrite lookup_total_alt, Hin. }
    assert (fresh (dom h) ≠ input) as Hne by (by eapply fresh_ne).
    erewrite bind_Returned by reflexivity.
    erewrite bind_Returned by reflexivity.
    rewrite ret_Returned, !contents_insert_eq, !insert_insert_eq.
    rewrite (contents_insert_ne _ _ _ _ Hne). fold sizes.
    rewrite length_replicate, Nat2Z.id, Nat.min_id.
    rewrite firstn_all, drop_ge, app_nil_r by (by rewrite length_replicate).
    done.
  - by erewrite bind_Panicked by exact Hloop.
Qed.

Lemma catalog_largest o h sizes :
  catalog o h sizes → largest sizes (hd 0 sizes).
Proof.
  intros (_ & Hne & _ & Hsorted).
  destruct sizes as [|M rest]; [done|]. simpl. split; [left|].
  apply Sorted_StronglySorted in Hsorted; [|apply _].
  apply StronglySorted_inv in Hsorted as [_ Hrest].
  constructor; [done|]. eapply Forall_impl; [exact Hrest|]. by intros p Hp.
Qed.

Lemma largest_unique sizes M M' : largest sizes M → largest sizes M' → M = M'.
Proof.
  intros [HM Hle] [HM' Hle'].
  pose proof (proj1 (Forall_forall _ _) Hle _ HM').
  pose proof (proj1 (Forall_forall _ _) Hle' _ HM). simpl in *. lia.
Qed.

(** An accepted input yields an optimizer holding a catalog that is the
    input in descending order. *)
Lemma NewOptimizer_catalog input (h : heap) o h' :
  NewOptimizer input h = (Returned o, h') →
  ∃ sizes, catalog o h' sizes
    ∧ sizes = merge_sort (flip Z.le) (contents h input)
    ∧ sizes ≡ₚ contents h input.
Proof.
  rewrite NewOptimizer_spec. cbv zeta.
  destruct (decide (_ = [])) as [|Hne]; [done|].
  destruct (decide (Forall _ _)) as [Hpos|]; [|done].
  intros [= <- <-]. eexists. split; [|split; [done|]].
  - split; [simpl; apply lookup_insert_eq|]. split.
    + intros Hnil. apply Hne, Permutation_nil_r.
      rewrite <-Hnil. by rewrite merge_sort_Permutation.
    + split; [by rewrite merge_sort_Permutation|].
      apply Sorted_merge_sort, _.
  - apply merge_sort_Permutation.
Qed.

(** ** The result of [Optimize] *)

(** [Optimize] returns on every quantity; it leaves the heap as it was,
    but for the table it allocated when the quantity is positive. *)
Theorem Optimize_spec o (h : heap) sizes quantity :
  catalog o h sizes →
  Optimize o quantity h
  = (Returned (resultT sizes quantity),
     if decide (quantity ≤ 0) then h
     else <[fresh (dom h) := (fillT sizes quantity (quantity + hd 0 sizes)).1]> h).
Proof.
  intros (Hps & Hne & Hpos & _). unfold Optimize, resultT.
  destruct (decide (quantity < 0)); [by rewrite decide_True by lia|].
  destruct (decide (quantity = 0)); [by rewrite decide_True by lia|].
  rewrite decide_False by lia.
  erewrite bind_Returned
    by (apply (findOptimalSolution_table o quantity h sizes); (done || lia)).
  done.
Qed.

Lemma Optimize_result o (h : heap) sizes quantity :
  catalog o h sizes → (Optimize o quantity h).1 = Returned (resultT sizes quantity).
Proof. intros Hcat. by rewrite (Optimize_spec o h sizes). Qed.

(** Arrays allocated before the call are the same after it. *)
Lemma Optimize_frame o (h : heap) sizes quantity s l :
  catalog o h sizes → h !! s = Some l → (Optimize o quantity h).2 !! s = Some l.
Proof.
  intros Hcat Hs. rewrite (Optimize_spec o h sizes) by done. simpl.
  case_decide; [done|].
  rewrite lookup_insert_ne; [done|]. by eapply fresh_ne.
Qed.

Lemma Optimize_catalog o (h : heap) sizes quantity :
  catalog o h sizes → catalog o (Optimize o quantity h).2 sizes.
Proof.
  intros Hcat. pose proof Hcat as (Hps & ?).
  split; [|done]. by eapply Optimize_frame.
Qed.

Lemma NewOptimizer_frame input (h : heap) s l :
  h !! s = Some l → (NewOptimizer input h).2 !! s = Some l.
Proof.
  intros Hs. rewrite NewOptimizer_spec. cbv zeta.
  repeat case_decide; simpl; try done.
  rewrite lookup_insert_ne; [done|]. by eapply fresh_ne.
Qed.

(** *** The packages mapping *)

Lemma toPackages_snoc pkgs pkg :
  toPackages (pkgs ++ [pkg])
  = if decide (Count pkg > 0)
    then <[pretty (Size pkg) := Count pkg]> (toPackages pkgs)
    else toPackages pkgs.
Proof. unfold toPackages. by rewrite foldl_app. Qed.

Lemma toPackages_entries pkgs :
  NoDup (Size <$> pkgs) →
  Forall (λ pkg, 0 < Count pkg) pkgs →
  map_to_list (toPackages pkgs) ≡ₚ entry <$> pkgs.
Proof.
  induction pkgs as [|pkg pkgs IH] using rev_ind; intros Hnd Hall.
  - unfold toPackages; simpl. by rewrite map_to_list_empty.
  - rewrite fmap_app in Hnd. apply NoDup_app in Hnd as (Hnd & Hfresh & _).
    apply Forall_app in Hall as [Hall Hpkg].
    rewrite Forall_singleton in Hpkg. specialize (IH Hnd Hall).
    rewrite toPackages_snoc, decide_True by lia.
    rewrite map_to_list_insert.
    + rewrite IH, fmap_app. simpl. by rewrite Permutation_app_comm.
    + destruct (toPackages pkgs !! pretty (Size pkg)) as [c|] eqn:Hc; [|done].
      apply elem_of_map_to_list in Hc. rewrite IH in Hc.
      apply list_elem_of_fmap in Hc as (pkg' & [= Hkey _] & Hin).
      apply (inj pretty) in Hkey. destruct (Hfresh (Size pkg)).
      * rewrite Hkey. by apply list_elem_of_fmap_2.
      * simpl. left.
Qed.

Lemma digit_pretty d : (d < 10)%N → digit (pretty_N_char d) = Z.of_N d.
Proof.
  intros Hd.
  assert (d ∈ [0; 1; 2; 3; 4; 5; 6; 7; 8; 9]%N) as Hin.
  { rewrite !elem_of_cons. lia. }
  rewrite !elem_of_cons in Hin.
  destruct Hin as [->|[->|[->|[->|[->|[->|[->|[->|[->|[->|[]%elem_of_nil]]]]]]]]]];
    reflexivity.
Qed.

Lemma parseDecimal_pretty_go x : ∀ s,
  parseDecimal (pretty_N_go x s) 0 = parseDecimal s (Z.of_N x).
Proof.
  induction (N.lt_wf_0 x) as [x _ IH]; intros s.
  destruct (decide (x = 0)%N) as [->|Hx]; [by rewrite pretty_N_go_0|].
  rewrite pretty_N_go_step by lia.
  rewrite IH by (apply N.div_lt; lia). simpl.
  rewrite digit_pretty by (apply N.mod_lt; lia). f_equal.
  rewrite (N.div_mod x 10) at 3 by lia. lia.
Qed.

Lemma sizeOfKey_pretty (size : Z) : 0 < size → sizeOfKey (pretty size) = size.
Proof.
  intros Hsize. destruct size as [|p|p]; [lia| |lia].
  unfold sizeOfKey, pretty, pretty_Z, pretty, pretty_positive, pretty, pretty_N.
  rewrite decide_False by done.
  by rewrite parseDecimal_pretty_go.
Qed.

Lemma deliveredByMap_entries (m : gmap string Z) pkgs :
  map_to_list m ≡ₚ entry <$> pkgs →
  Forall (λ pkg, 0 < Size pkg) pkgs →
  deliveredByMap m = delivered pkgs.
Proof.
  intros Hm Hall. unfold deliveredByMap.
  transitivity (foldr (λ kc acc, sizeOfKey kc.1 * kc.2 + acc) 0 (entry <$> pkgs)).
  - generalize dependent (entry <$> pkgs). generalize (map_to_list m).
    intros l1 l2 Hperm. induction Hperm; simpl; lia.
  - clear Hm. induction Hall as [|pkg pkgs Hpkg Hall IH]; [done|].
    rewrite fmap_cons. cbn [foldr delivered]. rewrite IH.
    unfold entry at 1 2. cbn [fst snd]. by rewrite sizeOfKey_pretty.
Qed.

(** For a positive quantity the result is read off the selected entry. *)
Lemma resultT_positive sizes quantity :
  0 < quantity →
  resultT sizes quantity
  = (Some {| Requested := quantity;
             TotalDelivered := totalDelivered (solutionT sizes quantity);
             OverDelivery := totalDelivered (solutionT sizes quantity) - quantity;
             Packages := toPackages (packages (solutionT sizes quantity)) |},
     None).
Proof. intros Hq. unfold resultT. by rewrite !decide_False by lia. Qed.

Lemma catalog_optimal o h sizes quantity M :
  catalog o h sizes → largest sizes M → 0 < quantity →
  let sol := solutionT sizes quantity in
  quantity ≤ totalDelivered sol ≤ quantity + M - 1
  ∧ breakdown sizes (packages sol) (totalDelivered sol)
  ∧ ∀ D, reachable sizes D → quantity ≤ D → totalDelivered sol ≤ D.
Proof.
  intros Hcat HM Hq.
  pose proof (catalog_largest _ _ _ Hcat) as Hhd.
  pose proof (largest_unique _ _ _ Hhd HM) as HhdM.
  destruct Hcat as (_ & _ & Hpos & _). destruct HM as [HM Hle].
  by apply solutionT_optimal.
Qed.

Lemma catalog_has_largest o h sizes :
  catalog o h sizes → ∃ M, largest sizes M.
Proof. intros Hcat. eexists. by eapply catalog_largest. Qed.

(** ** The repository's test table

    The cases of [tests/optimizer_test.go], run through the embedding. *)

Example test_exact_match :
  run [250; 500; 1000; 2000] 1000 = returns 1000 1000 0 {[ "1000" := 1 ]}.
Proof. by vm_compute. Qed.

Example test_over_delivery :
  run [250; 500; 1000; 2000] 1201
  = returns 1201 1250 49 {[ "1000" := 1; "250" := 1 ]}.
Proof. by vm_compute. Qed.

Example test_zero_quantity :
  run [250; 500; 1000; 2000] 0 = returns 0 0 0 ∅.
Proof. by vm_compute. Qed.

Example test_small_quantity :
  run [1000; 2000] 500 = returns 500 1000 500 {[ "1000" := 1 ]}.
Proof. by vm_compute. Qed.

Example test_negative_quantity :
  run [250; 500; 1000; 2000] (-100)
  = Returned (None, Some "quantity must be non-negative, got -100").
Proof. by vm_compute. Qed.

Example test_single_size :
  run [100] 250 = returns 250 300 50 {[ "100" := 3 ]}.
Proof. by vm_compute. Qed.

Example test_tie_breaking :
  run [100; 200] 150 = returns 150 200 50 {[ "200" := 1 ]}.
Proof. by vm_compute. Qed.

Example test_equals_smallest :
  run [100; 200; 500] 100 = returns 100 100 0 {[ "100" := 1 ]}.
Proof. by vm_compute. Qed.

Example test_empty_sizes :
  run [] 10 = Panicked "package sizes cannot be empty".
Proof. by vm_compute. Qed.

Example test_negative_size :
  run [-100; 200] 10 = Panicked "package sizes must be positive".
Proof. by vm_compute. Qed.

(** ** The properties of the optimizer *)



(** *** A concrete optimizer: the default catalog of the service *)

Lemma example_constructed :
  NewOptimizer 0%nat (callerHeap exampleInput)
  = (Returned exampleOptimizer, exampleHeap).
Proof. by vm_compute. Defined.

Ltac catalog_by_computation :=
  split; [by vm_compute|];
  split; [done|];
  split; [repeat constructor|repeat constructor; unfold flip; lia].



(** A result that [Optimize] returns is for a quantity [>= 0], and its
    mapping is written from a breakdown of what is delivered. *)
Lemma Optimize_Some o (h : heap) sizes quantity result :
  catalog o h sizes →
  (Optimize o quantity h).1 = Returned (Some result, None) →
  0 ≤ quantity
  ∧ Requested result = quantity
  ∧ quantity ≤ TotalDelivered result
  ∧ ∃ pkgs,
      breakdown sizes pkgs (TotalDelivered result)
      ∧ Packages result = toPackages pkgs.
Proof.
  intros Hcat. rewrite (Optimize_result o h sizes) by done.
  destruct (decide (quantity < 0)) as [Hneg|Hnonneg].
  { unfold resultT. by rewrite decide_True. }
  destruct (decide (quantity = 0)) as [->|Hne].
  - intros [= <-]. cbn [Requested TotalDelivered Packages].
    repeat split; [done..|]. exists []. split; [apply breakdown_nil|done].
  - rewrite resultT_positive by lia. intros Heq.
    destruct (catalog_has_largest _ _ _ Hcat) as [M HM].
    destruct (catalog_optimal o h sizes quantity M Hcat HM) as (Hr & Hb & _);
      [lia|].
    set (sol := solutionT sizes quantity) in *. clearbody sol.
    injection Heq as <-. cbn [Requested TotalDelivered Packages].
    repeat split; [lia..|]. eexists. split; [exact Hb|done].
Qed.

Lemma breakdown_entries sizes pkgs n :
  Forall (λ p, 0 < p) sizes →
  breakdown sizes pkgs n →
  map_to_list (toPackages pkgs) ≡ₚ entry <$> pkgs
  ∧ deliveredByMap (toPackages pkgs) = n.
Proof.
  intros Hpos (Hd & Hnd & Hall).
  assert (map_to_list (toPackages pkgs) ≡ₚ entry <$> pkgs) as Hentries.
  { apply toPackages_entries; [done|].
    eapply Forall_impl; [exact Hall|]. by intros pkg [_ ?]. }
  split; [done|]. rewrite <-Hd.
  apply deliveredByMap_entries; [done|].
  eapply Forall_impl; [exact Hall|]. intros pkg [Hin _].
  by eapply (proj1 (Forall_forall _ _) Hpos).
Qed.

(** C4: for every successful call, what is delivered is the sum over the
    returned mapping of size times count; every key is the decimal
    rendering of a catalog size, distinct sizes having distinct keys, and
    every count in the mapping is strictly positive. *)
Theorem Optimize_packages o (h : heap) sizes quantity result :
  catalog o h sizes →
  (Optimize o quantity h).1 = Returned (Some result, None) →
  TotalDelivered result = deliveredByMap (Packages result)
  ∧ (∀ key count,
       Packages result !! key = Some count →
       0 < count ∧ ∃ size, size ∈ sizes ∧ key = pretty size)
  ∧ ∃ pkgs,
      NoDup (Size <$> pkgs)
      ∧ map_to_list (Packages result) ≡ₚ entry <$> pkgs.
Proof.
  intros Hcat Hresult.
  destruct (Optimize_Some _ _ _ _ _ Hcat Hresult)
    as (_ & _ & _ & pkgs & Hb & ->).
  destruct Hcat as (_ & _ & Hpos & _).
  destruct (breakdown_entries _ _ _ Hpos Hb) as [Hentries Hsum].
  split; [done|]. split.
  - intros key count Hkey. apply elem_of_map_to_list in Hkey.
    rewrite Hentries in Hkey.
    apply list_elem_of_fmap in Hkey as (pkg & [= -> ->] & Hin).
    destruct Hb as (_ & _ & Hall).
    destruct (proj1 (Forall_forall _ _) Hall _ Hin) as [Hsize Hcount].
    split; [done|]. by exists (Size pkg).
  - exists pkgs. split; [|done]. by destruct Hb as (_ & ? & _).
Qed.

Lemma Optimize_packages_witness :
  catalog exampleOptimizer exampleHeap exampleCatalog
  ∧ let result := {| Requested := 1201; TotalDelivered := 1250;
                     OverDelivery := 49;
                     Packages := {[ "1000" := 1; "250" := 1 ]} |} in
    (Optimize exampleOptimizer 1201 exampleHeap).1 = Returned (Some result, None)
    ∧ TotalDelivered result = deliveredByMap (Packages result)
    ∧ (∀ key count,
         Packages result !! key = Some count →
         0 < count ∧ ∃ size, size ∈ exampleCatalog ∧ key = pretty size)
    ∧ ∃ pkgs,
        NoDup (Size <$> pkgs)
        ∧ map_to_list (Packages result) ≡ₚ entry <$> pkgs.
Proof.
  split; [catalog_by_computation|]. split; [by vm_compute|].
  apply (Optimize_packages exampleOptimizer exampleHeap exampleCatalog 1201);
    [catalog_by_computation|by vm_compute].
Defined.



(** C8: for the quantity 0 the result is the zero result with an empty
    mapping, returned without touching the heap (no table is allocated),
    whatever the optimizer; and on a valid catalog the mapping of a
    result is empty exactly when the requested quantity is 0, so it is
    not empty for a positive quantity. *)
Theorem Optimize_zero_iff_empty :
  (∀ o (h : heap),
     Optimize o 0 h
     = (Returned (Some {| Requested := 0; TotalDelivered := 0;
                          OverDelivery := 0; Packages := ∅ |}, None), h))
  ∧ (∀ o (h : heap) sizes quantity result,
       catalog o h sizes →
       (Optimize o quantity h).1 = Returned (Some result, None) →
       (Packages result = ∅ ↔ Requested result = 0)
       ∧ (0 < quantity → Packages result ≠ ∅)).
Proof.
  split; [done|]. intros o h sizes quantity result Hcat Hresult.
  destruct (Optimize_Some _ _ _ _ _ Hcat Hresult)
    as (Hq & Hreq & Hle & pkgs & Hb & Hpackages).
  assert (Packages result = ∅ → TotalDelivered result = 0) as Hempty.
  { intros Hnil. pose proof Hcat as (_ & _ & Hpos & _).
    destruct (breakdown_entries _ _ _ Hpos Hb) as [_ <-].
    rewrite <-Hpackages, Hnil. unfold deliveredByMap.
    by rewrite map_to_list_empty. }
  split; [split|].
  - intros Hnil. specialize (Hempty Hnil). lia.
  - intros Hzero. assert (quantity = 0) as -> by lia.
    rewrite (Optimize_result o h sizes) in Hresult by done.
    by injection Hresult as <-.
  - intros Hpositive Hnil. specialize (Hempty Hnil). lia.
Qed.

Lemma Optimize_zero_iff_empty_witness :
  catalog exampleOptimizer exampleHeap exampleCatalog
  ∧ let result := {| Requested := 1201; TotalDelivered := 1250;
                     OverDelivery := 49;
                     Packages := {[ "1000" := 1; "250" := 1 ]} |} in
    (Optimize exampleOptimizer 1201 exampleHeap).1 = Returned (Some result, None)
    ∧ (Packages result = ∅ ↔ Requested result = 0)
    ∧ (0 < 1201 → Packages result ≠ ∅).
Proof.
  split; [catalog_by_computation|]. split; [by vm_compute|].
  apply (proj2 Optimize_zero_iff_empty exampleOptimizer exampleHeap
           exampleCatalog 1201);
    [catalog_by_computation|by vm_compute].
Defined.

(** C9: [Optimize] is deterministic: the result is a function of the
    catalog and the quantity alone, so a second call with the same
    quantity, on the heap the first call left, returns the same result
    (the same requested, delivered and over-delivered quantities and the
    same mapping), and so does a call on any other optimizer holding the
    same catalog. *)
Theorem Optimize_deterministic o (h : heap) sizes quantity :
  catalog o h sizes →
  (Optimize o quantity (Optimize o quantity h).2).1 = (Optimize o quantity h).1
  ∧ ∀ o' (h' : heap),
      catalog o' h' sizes →
      (Optimize o' quantity h').1 = (Optimize o quantity h).1.
Proof.
  intros Hcat. split.
  - rewrite (Optimize_result o _ sizes) by (by apply Optimize_catalog).
    by rewrite (Optimize_result o h sizes).
  - intros o' h' Hcat'.
    by rewrite (Optimize_result o' h' sizes), (Optimize_result o h sizes).
Qed.

Lemma Optimize_deterministic_witness :
  catalog exampleOptimizer exampleHeap exampleCatalog
  ∧ (Optimize exampleOptimizer 1201
       (Optimize exampleOptimizer 1201 exampleHeap).2).1
    = (Optimize exampleOptimizer 1201 exampleHeap).1
  ∧ ∀ o' (h' : heap),
      catalog o' h' exampleCatalog →
      (Optimize o' 1201 h').1 = (Optimize exampleOptimizer 1201 exampleHeap).1.
Proof.
  split; [catalog_by_computation|].
  apply (Optimize_deterministic exampleOptimizer exampleHeap exampleCatalog 1201).
  catalog_by_computation.
Defined.

Lemma optimizeAll_frame o sizes quantities : ∀ (h : heap),
  catalog o h sizes →
  catalog o (optimizeAll o quantities h) sizes
  ∧ ∀ s l, h !! s = Some l → optimizeAll o quantities h !! s = Some l.
Proof.
  induction quantities as [|quantity rest IH]; intros h Hcat; [done|].
  simpl. destruct (IH _ (Optimize_catalog o h sizes quantity Hcat)) as [Hc Hf].
  split; [done|]. intros s l Hs. by eapply Hf, Optimize_frame.
Qed.

(** C10: [NewOptimizer] leaves the slice passed to it as it was, the
    same elements in the same order, whether it returns or panics; and
    after any sequence of [Optimize] calls on the optimizer it returned
    both that slice and the optimizer's [packageSizes] are still what
    they were when the constructor returned. *)
Theorem NewOptimizer_Optimize_frame input (h : heap) :
  contents (NewOptimizer input h).2 input = contents h input
  ∧ ∀ o h1 quantities,
      NewOptimizer input h = (Returned o, h1) →
      let h2 := optimizeAll o quantities h1 in
      contents h2 input = contents h input
      ∧ contents h2 (packageSizes o) = contents h1 (packageSizes o)
      ∧ packageSizes o ≠ input.
Proof.
  assert (contents (NewOptimizer input h).2 input = contents h input) as Hin.
  { destruct (h !! input) as [l|] eqn:Hl.
    - rewrite (contents_Some h input l) by done.
      apply contents_Some. by apply NewOptimizer_frame.
    - rewrite NewOptimizer_spec. cbv zeta.
      rewrite decide_True; [done|].
      unfold contents. by rewrite lookup_total_alt, Hl. }
  split; [done|]. intros o h1 quantities Hnew h2.
  destruct (NewOptimizer_catalog _ _ _ _ Hnew) as (sizes & Hcat & _ & _).
  destruct (optimizeAll_frame o sizes quantities h1 Hcat) as [Hcat2 Hframe].
  rewrite Hnew in Hin. simpl in Hin.
  rewrite NewOptimizer_spec in Hnew. cbv zeta in Hnew.
  destruct (decide (contents h input = [])) as [|Hne]; [done|].
  destruct (decide (Forall _ _)); [|done]. injection Hnew as <- <-.
  destruct (h !! input) as [l|] eqn:Hl; last first.
  { destruct Hne. unfold contents. by rewrite lookup_total_alt, Hl. }
  assert (fresh (dom h) ≠ input) as Hfresh by (by eapply fresh_ne).
  split; [|split; [|done]].
  - rewrite <-Hin. subst h2.
    rewrite (contents_Some _ input l).
    + symmetry. apply contents_Some. by rewrite lookup_insert_ne.
    + apply Hframe. by rewrite lookup_insert_ne.
  - destruct Hcat as (Hps & _). destruct Hcat2 as (Hps2 & _).
    subst h2. by rewrite (contents_Some _ _ _ Hps), (contents_Some _ _ _ Hps2).
Qed.

Lemma NewOptimizer_Optimize_frame_witness :
  contents (NewOptimizer 0%nat (callerHeap exampleInput)).2 0%nat
  = contents (callerHeap exampleInput) 0%nat
  ∧ NewOptimizer 0%nat (callerHeap exampleInput)
    = (Returned exampleOptimizer, exampleHeap)
  ∧ let h2 := optimizeAll exampleOptimizer [1201; 0; -5; 1000] exampleHeap in
    contents h2 0%nat = contents (callerHeap exampleInput) 0%nat
    ∧ contents h2 (packageSizes exampleOptimizer)
      = contents exampleHeap (packageSizes exampleOptimizer)
    ∧ packageSizes exampleOptimizer ≠ 0%nat.
Proof.
  split;
    [apply (proj1 (NewOptimizer_Optimize_frame 0%nat (callerHeap exampleInput)))|].
  split; [by vm_compute|].
  apply (proj2 (NewOptimizer_Optimize_frame 0%nat (callerHeap exampleInput))
           exampleOptimizer exampleHeap [1201; 0; -5; 1000]).
  by vm_compute.
Defined.

(** C5, as the code has it: an accepted input yields a catalog in
    descending order that is a permutation of the input, so a size given
    several times is neither rejected nor collapsed: it is in the catalog
    as many times as in the input. *)
Theorem NewOptimizer_sorted_permutation input (h : heap) o h' :
  NewOptimizer input h = (Returned o, h') →
  Sorted (flip Z.le) (contents h' (packageSizes o))
  ∧ contents h' (packageSizes o) ≡ₚ contents h input.
Proof.
  intros Hnew.
  destruct (NewOptimizer_catalog _ _ _ _ Hnew) as (sizes & Hcat & _ & Hperm).
  destruct Hcat as (Hps & _ & _ & Hsorted).
  by rewrite (contents_Some _ _ _ Hps).
Qed.

Lemma NewOptimizer_sorted_permutation_witness :
  NewOptimizer 0%nat (callerHeap exampleInput)
  = (Returned exampleOptimizer, exampleHeap)
  ∧ Sorted (flip Z.le) (contents exampleHeap (packageSizes exampleOptimizer))
  ∧ contents exampleHeap (packageSizes exampleOptimizer)
    ≡ₚ contents (callerHeap exampleInput) 0%nat.
Proof.
  split; [by vm_compute|].
  apply (NewOptimizer_sorted_permutation 0%nat (callerHeap exampleInput)
           exampleOptimizer exampleHeap).
  by vm_compute.
Defined.

(** C5 as stated fails: the input [5, 5] is accepted and the catalog
    built from it is [5, 5], which holds the size 5 twice. *)
Lemma NewOptimizer_keeps_duplicates :
  NewOptimizer 0%nat (callerHeap [5; 5])
  = (Returned {| packageSizes := 1%nat |}, <[1%nat := [5; 5]]> (callerHeap [5; 5]))
  ∧ ¬ (∀ input (h : heap) o h',
         NewOptimizer input h = (Returned o, h') →
         Sorted (flip Z.le) (contents h' (packageSizes o))
         ∧ NoDup (contents h' (packageSizes o))).
Proof.
  assert (NewOptimizer 0%nat (callerHeap [5; 5])
          = (Returned {| packageSizes := 1%nat |},
             <[1%nat := [5; 5]]> (callerHeap [5; 5]))) as Hnew
    by (by vm_compute).
  split; [done|]. intros Hclaim.
  destruct (Hclaim _ _ _ _ Hnew) as [_ Hnodup].
  rewrite contents_insert_eq in Hnodup.
  apply NoDup_cons in Hnodup as [Hnotin _]. apply Hnotin. left.
Qed.

(** C6, as the code has it: on an empty collection, and on a non-empty
    one holding a size [<= 0], the constructor panics, with the message
    of the case, and leaves the heap as it was; no failure value is
    returned.  On a non-empty collection of positive sizes it returns an
    optimizer. *)
Theorem NewOptimizer_panics_or_returns input (h : heap) :
  (contents h input = [] →
   NewOptimizer input h = (Panicked "package sizes cannot be empty", h))
  ∧ (contents h input ≠ [] →
     Exists (λ p, p ≤ 0) (contents h input) →
     NewOptimizer input h = (Panicked "package sizes must be positive", h))
  ∧ (contents h input ≠ [] →
     Forall (λ p, 0 < p) (contents h input) →
     ∃ o h', NewOptimizer input h = (Returned o, h')).
Proof.
  rewrite NewOptimizer_spec. cbv zeta. split; [|split].
  - intros Hnil. by rewrite decide_True.
  - intros Hne Hbad. rewrite decide_False by done.
    rewrite decide_False; [done|]. intros Hpos.
    apply Exists_exists in Hbad as (p & Hin & Hp).
    pose proof (proj1 (Forall_forall _ _) Hpos _ Hin). simpl in *. lia.
  - intros Hne Hpos. rewrite decide_False, decide_True by done. by eexists _, _.
Qed.

Lemma NewOptimizer_panics_or_returns_witness :
  (contents (callerHeap []) 0%nat = []
   ∧ NewOptimizer 0%nat (callerHeap [])
     = (Panicked "package sizes cannot be empty", callerHeap []))
  ∧ (contents (callerHeap [-100; 200]) 0%nat ≠ []
     ∧ Exists (λ p, p ≤ 0) (contents (callerHeap [-100; 200]) 0%nat)
     ∧ NewOptimizer 0%nat (callerHeap [-100; 200])
       = (Panicked "package sizes must be positive", callerHeap [-100; 200]))
  ∧ (contents (callerHeap exampleInput) 0%nat ≠ []
     ∧ Forall (λ p, 0 < p) (contents (callerHeap exampleInput) 0%nat)
     ∧ ∃ o h', NewOptimizer 0%nat (callerHeap exampleInput) = (Returned o, h')).
Proof.
  split; [|split].
  - split; [by vm_compute|].
    apply (proj1 (NewOptimizer_panics_or_returns 0%nat (callerHeap []))).
    by vm_compute.
  - split; [by vm_compute|]. split; [left; by vm_compute|].
    apply (proj1 (proj2 (NewOptimizer_panics_or_returns 0%nat
                           (callerHeap [-100; 200])))).
    + by vm_compute.
    + left. by vm_compute.
  - split; [by vm_compute|].
    split; [vm_compute; repeat constructor|].
    apply (proj2 (proj2 (NewOptimizer_panics_or_returns 0%nat
                           (callerHeap exampleInput)))).
    + by vm_compute.
    + vm_compute. repeat constructor.
Defined.

(** C6 as stated fails: on the empty collection, and on [-100, 200], the
    constructor does not return at all, so no failure value comes back
    from it: it panics. *)
Lemma NewOptimizer_aborts_on_invalid :
  (NewOptimizer 0%nat (callerHeap [])).1
  = Panicked "package sizes cannot be empty"
  ∧ (NewOptimizer 0%nat (callerHeap [-100; 200])).1
    = Panicked "package sizes must be positive"
  ∧ ¬ (∃ failure, (NewOptimizer 0%nat (callerHeap [])).1 = Returned failure)
  ∧ ¬ (∃ failure,
         (NewOptimizer 0%nat (callerHeap [-100; 200])).1 = Returned failure).
Proof.
  assert ((NewOptimizer 0%nat (callerHeap [])).1
          = Panicked "package sizes cannot be empty") as Hempty
    by (by vm_compute).
  assert ((NewOptimizer 0%nat (callerHeap [-100; 200])).1
          = Panicked "package sizes must be positive") as Hnegative
    by (by vm_compute).
  rewrite Hempty, Hnegative. repeat split; try done; by intros [? ?].
Qed.

(** C2 fails on the code: for the catalog [4, 3, 1] and the quantity 6
    the result delivers 6 with one package of 4 and two of 1, three
    packages, while two packages of 3 deliver 6 as well.  The update and
    the final scan compare the lengths of the breakdowns, which count the
    distinct sizes used, not the packages. *)
Lemma Optimize_not_fewest_packages :
  let result := {| Requested := 6; TotalDelivered := 6; OverDelivery := 0;
                   Packages := {[ "4" := 1; "1" := 2 ]} |} in
  run [4; 3; 1] 6 = Returned (Some result, None)
  ∧ countByMap (Packages result) = 3
  ∧ combination [4; 3; 1] [0; 2; 0]%nat - 6 = OverDelivery result
  ∧ packagesUsed [4; 3; 1] [0; 2; 0]%nat = 2.
Proof. by vm_compute. Qed.


(** ** Further properties of the optimizer *)

















(** X5: the add-or-update loop of the dynamic program records exactly
    one more package of [packageSize]: the count of that size goes up by
    one, the count of every other size stays, and a breakdown whose
    sizes are distinct keeps its sizes distinct. *)
Theorem addPackage_countOf pkgs packageSize :
  (∀ size,
     countOf (addPackage pkgs packageSize) size
     = countOf pkgs size + (if decide (size = packageSize) then 1 else 0))
  ∧ (NoDup (Size <$> pkgs) → NoDup (Size <$> addPackage pkgs packageSize)).
Proof.
  split.
  - intros size. unfold addPackage.
    destruct (increment pkgs packageSize) as [pkgs'|] eqn:Hinc.
    + revert pkgs' Hinc.
      induction pkgs as [|pkg pkgs IH]; intros pkgs' Hinc; [done|].
      simpl in Hinc. destruct (decide (Size pkg = packageSize)) as [Hp|Hp].
      * injection Hinc as <-. simpl. repeat case_decide; congruence || lia.
      * destruct (increment pkgs packageSize) as [l|]; [|done].
        injection Hinc as <-. simpl. rewrite (IH l eq_refl). lia.
    + clear Hinc. induction pkgs as [|pkg pkgs IH].
      * simpl. repeat case_decide; congruence || lia.
      * simpl. rewrite IH. lia.
  - intros Hnd. unfold addPackage.
    destruct (increment pkgs packageSize) as [pkgs'|] eqn:Hinc.
    + by destruct (increment_Some _ _ _ Hinc) as (_ & -> & _).
    + apply increment_None in Hinc. rewrite fmap_app.
      apply NoDup_app. split; [done|]. split; [|apply NoDup_singleton].
      intros x Hx ->%list_elem_of_singleton. done.
Qed.

Lemma addPackage_countOf_witness :
  (∀ size,
     countOf (addPackage [{| Size := 1000; Count := 1 |}] 250) size
     = countOf [{| Size := 1000; Count := 1 |}] size
       + (if decide (size = 250) then 1 else 0))
  ∧ NoDup (Size <$> [{| Size := 1000; Count := 1 |}])
  ∧ NoDup (Size <$> addPackage [{| Size := 1000; Count := 1 |}] 250).
Proof.
  split; [apply (proj1 (addPackage_countOf [{| Size := 1000; Count := 1 |}] 250))|].
  split; [apply NoDup_singleton|].
  apply (proj2 (addPackage_countOf [{| Size := 1000; Count := 1 |}] 250)).
  apply NoDup_singleton.
Defined.



(** *** Repeated and reordered sizes *)

Lemma increment_length pkgs p pkgs' :
  increment pkgs p = Some pkgs' → length pkgs' = length pkgs.
Proof.
  intros Hinc. destruct (increment_Some _ _ _ Hinc) as (_ & Hsizes & _).
  by rewrite <-(length_fmap Size), Hsizes, length_fmap.
Qed.

Lemma addPackage_length pkgs p :
  (length (addPackage pkgs p) ≤ length pkgs + 1)%nat.
Proof.
  unfold addPackage. destruct (increment pkgs p) as [pkgs'|] eqn:Hinc.
  - rewrite (increment_length _ _ _ Hinc). lia.
  - rewrite length_app. simpl. lia.
Qed.

(** Trying the same size twice in a row changes nothing the second time. *)
Lemma tryPackageT_twice n quantity maxQuantity i t p :
  sized n t → 0 ≤ i < Z.of_nat n → 0 < p →
  tryPackageT quantity maxQuantity i (tryPackageT quantity maxQuantity i t p) p
  = tryPackageT quantity maxQuantity i t p.
Proof.
  intros [Hdp Hpc] Hi Hp.
  assert (tryPackageT quantity maxQuantity i t p = t
          ∨ (p ≤ i
             ∧ t.1 !!! Z.to_nat (i - p) ≠ maxQuantity + 1
             ∧ tryPackageT quantity maxQuantity i t p
               = (<[Z.to_nat i :=
                      t.1 !!! Z.to_nat (i - p) + max 0 (i - quantity)]> t.1,
                  <[Z.to_nat i :=
                      addPackage (t.2 !!! Z.to_nat (i - p)) p]> t.2)))
    as [Heq|(Hle & Hreach & Heq)].
  { unfold tryPackageT. repeat case_decide; auto. }
  { by rewrite !Heq. }
  rewrite Heq. unfold tryPackageT. cbn [fst snd].
  rewrite decide_True by done.
  rewrite !list_lookup_total_insert_ne by lia.
  rewrite !list_lookup_total_insert_eq by lia.
  rewrite decide_True by done.
  rewrite (list_lookup_total_insert_ne t.2) by lia.
  rewrite decide_False; [done|].
  pose proof (addPackage_length (t.2 !!! Z.to_nat (i - p)) p). lia.
Qed.

Lemma squash_cons p rest : ∃ tl, squash (p :: rest) = p :: tl.
Proof.
  revert p. induction rest as [|p' rest IH]; intros p; [by exists []|].
  simpl. destruct (decide (p = p')) as [->|]; [apply IH|by eexists].
Qed.

Lemma hd_squash sizes : hd 0 (squash sizes) = hd 0 sizes.
Proof.
  destruct sizes as [|p rest]; [done|].
  by destruct (squash_cons p rest) as [tl ->].
Qed.

Lemma elem_of_squash sizes x : x ∈ squash sizes ↔ x ∈ sizes.
Proof.
  induction sizes as [|p rest IH]; [done|].
  destruct rest as [|p' rest]; [done|].
  change (squash (p :: p' :: rest))
    with (if decide (p = p') then squash (p' :: rest)
          else p :: squash (p' :: rest)).
  destruct (decide (p = p')) as [->|].
  - rewrite IH, !elem_of_cons. tauto.
  - rewrite (elem_of_cons (squash _)), IH, !elem_of_cons. tauto.
Qed.

Lemma squash_sorted sizes :
  Sorted (flip Z.le) sizes → Sorted (flip Z.lt) (squash sizes).
Proof.
  induction sizes as [|p rest IH]; [constructor|].
  intros [Hrest Hhd]%Sorted_inv. specialize (IH Hrest).
  destruct rest as [|p' rest]; [repeat constructor|].
  change (squash (p :: p' :: rest))
    with (if decide (p = p') then squash (p' :: rest)
          else p :: squash (p' :: rest)).
  destruct (decide (p = p')) as [->|Hne]; [done|].
  constructor; [done|].
  destruct (squash_cons p' rest) as [tl ->]. constructor.
  apply HdRel_inv in Hhd. unfold flip in *. lia.
Qed.

Lemma squash_NoDup sizes :
  Sorted (flip Z.le) sizes → NoDup (squash sizes).
Proof.
  intros Hsorted%squash_sorted.
  apply Sorted_StronglySorted in Hsorted;
    [|intros x y z; unfold flip; lia].
  induction Hsorted as [|x l Hl IH Hall]; [constructor|].
  constructor; [|done]. intros Hin.
  pose proof (proj1 (Forall_forall _ _) Hall _ Hin) as Hlt.
  unfold flip in Hlt. lia.
Qed.

(** Two catalogs in descending order with the same sizes are the same
    once every size is kept once. *)
Lemma squash_unique sizes1 sizes2 :
  Sorted (flip Z.le) sizes1 → Sorted (flip Z.le) sizes2 →
  (∀ x, x ∈ sizes1 ↔ x ∈ sizes2) →
  squash sizes1 = squash sizes2.
Proof.
  intros H1 H2 Hsame.
  apply (Sorted_unique_strong (flip Z.lt)).
  - intros x1 x2 _ _. unfold flip. lia.
  - by apply squash_sorted.
  - by apply squash_sorted.
  - apply NoDup_Permutation; [by apply squash_NoDup..|].
    intros x. by rewrite !elem_of_squash.
Qed.

Lemma fillRowT_squash n sizes quantity maxQuantity i : ∀ t,
  Forall (λ p, 0 < p) sizes →
  sized n t → 0 ≤ i < Z.of_nat n →
  fillRowT (squash sizes) quantity maxQuantity t i
  = fillRowT sizes quantity maxQuantity t i.
Proof.
  unfold fillRowT.
  induction sizes as [|p rest IH]; intros t Hpos Ht Hi; [done|].
  apply Forall_cons in Hpos as [Hp Hpos].
  destruct rest as [|p' rest]; [done|].
  change (squash (p :: p' :: rest))
    with (if decide (p = p') then squash (p' :: rest)
          else p :: squash (p' :: rest)).
  destruct (decide (p = p')) as [<-|Hne].
  - rewrite IH by done. simpl.
    by rewrite (tryPackageT_twice n) by done.
  - change (foldl (tryPackageT quantity maxQuantity i)
              (tryPackageT quantity maxQuantity i t p) (squash (p' :: rest))
            = foldl (tryPackageT quantity maxQuantity i)
                (tryPackageT quantity maxQuantity i t p) (p' :: rest)).
    apply IH; [done|by apply tryPackageT_sized|done].
Qed.

Lemma fillT_squash sizes quantity maxQuantity :
  Forall (λ p, 0 < p) sizes →
  fillT (squash sizes) quantity maxQuantity = fillT sizes quantity maxQuantity.
Proof.
  intros Hpos. unfold fillT.
  pose proof (initT_sized maxQuantity) as Hinit.
  assert (Forall (λ i, 0 ≤ i < Z.of_nat (Z.to_nat (maxQuantity + 1)))
            (seqZ 1 maxQuantity)) as Hrows by (apply Forall_seqZ; lia).
  revert Hinit Hrows. generalize (initT maxQuantity) (seqZ 1 maxQuantity).
  intros t rows. revert t.
  induction rows as [|i rows IH]; intros t Ht Hrows; [done|].
  apply Forall_cons in Hrows as [Hi Hrows]. simpl.
  rewrite (fillRowT_squash _ sizes) by done.
  apply IH; [by apply fillRowT_sized|done].
Qed.

Lemma resultT_squash sizes quantity :
  Forall (λ p, 0 < p) sizes →
  resultT (squash sizes) quantity = resultT sizes quantity.
Proof.
  intros Hpos. unfold resultT, solutionT.
  by rewrite hd_squash, fillT_squash.
Qed.

(** X7: neither the order in which the sizes are given to the
    constructor nor giving a size several times changes any result: two
    optimizers built from collections holding the same sizes answer
    every quantity alike. *)
Theorem Optimize_same_sizes input1 (h1 : heap) o1 h1' input2 (h2 : heap) o2 h2'
    quantity :
  NewOptimizer input1 h1 = (Returned o1, h1') →
  NewOptimizer input2 h2 = (Returned o2, h2') →
  (∀ size, size ∈ contents h1 input1 ↔ size ∈ contents h2 input2) →
  (Optimize o1 quantity h1').1 = (Optimize o2 quantity h2').1.
Proof.
  intros Hnew1 Hnew2 Hsame.
  destruct (NewOptimizer_catalog _ _ _ _ Hnew1) as (sizes1 & Hcat1 & _ & Hperm1).
  destruct (NewOptimizer_catalog _ _ _ _ Hnew2) as (sizes2 & Hcat2 & _ & Hperm2).
  rewrite (Optimize_result o1 h1' sizes1), (Optimize_result o2 h2' sizes2)
    by done.
  destruct Hcat1 as (_ & _ & Hpos1 & Hsorted1).
  destruct Hcat2 as (_ & _ & Hpos2 & Hsorted2).
  rewrite <-(resultT_squash sizes1), <-(resultT_squash sizes2) by done.
  do 2 f_equal. apply squash_unique; [done..|].
  intros x. by rewrite Hperm1, Hperm2.
Qed.

Lemma Optimize_same_sizes_witness :
  NewOptimizer 0%nat (callerHeap exampleInput)
  = (Returned exampleOptimizer, exampleHeap)
  ∧ NewOptimizer 0%nat (callerHeap [2000; 250; 500; 250; 1000; 2000])
    = (Returned {| packageSizes := 1%nat |},
       <[1%nat := [2000; 2000; 1000; 500; 250; 250]]>
         (callerHeap [2000; 250; 500; 250; 1000; 2000]))
  ∧ (∀ size,
       size ∈ contents (callerHeap exampleInput) 0%nat
       ↔ size ∈ contents (callerHeap [2000; 250; 500; 250; 1000; 2000]) 0%nat)
  ∧ (Optimize exampleOptimizer 1201 exampleHeap).1
    = (Optimize {| packageSizes := 1%nat |} 1201
         (<[1%nat := [2000; 2000; 1000; 500; 250; 250]]>
            (callerHeap [2000; 250; 500; 250; 1000; 2000]))).1.
Proof.
  assert (∀ size,
            size ∈ contents (callerHeap exampleInput) 0%nat
            ↔ size ∈ contents (callerHeap [2000; 250; 500; 250; 1000; 2000])
                       0%nat) as Hsame.
  { intros size.
    change (size ∈ [250; 500; 1000; 2000]
            ↔ size ∈ [2000; 250; 500; 250; 1000; 2000]).
    rewrite !elem_of_cons, !elem_of_nil. tauto. }
  split; [by vm_compute|]. split; [by vm_compute|]. split; [exact Hsame|].
  apply (Optimize_same_sizes 0%nat (callerHeap exampleInput)
           exampleOptimizer exampleHeap
           0%nat (callerHeap [2000; 250; 500; 250; 1000; 2000]));
    [by vm_compute|by vm_compute|exact Hsame].
Defined.


(** ** Properties of config.go *)

Section parsing_properties.
Context (TrimSpace : string → string) (atoiError : string → error).

Local Abbreviation parsePieces := (config.parsePieces TrimSpace atoiError).
Local Abbreviation parsePackageSizes :=
  (config.parsePackageSizes TrimSpace atoiError).

(** The loop returns a list exactly when every kept piece is a positive
    integer, and the list is what it had with their values after it. *)
Lemma parsePieces_inl pieces : ∀ result out,
  parsePieces pieces result = inl out
  ↔ ∃ values,
      out = result ++ values
      ∧ Forall2 (λ piece value, Atoi piece = Some value ∧ 0 < value)
          (filter (λ piece, piece ≠ EmptyString) (TrimSpace <$> pieces))
          values.
Proof.
  induction pieces as [|piece pieces IH]; intros result out.
  - simpl. split.
    + intros [= <-]. exists []. by rewrite app_nil_r.
    + intros (values & -> & ->%Forall2_nil_inv_l). by rewrite app_nil_r.
  - rewrite fmap_cons. cbn [config.parsePieces].
    destruct (decide (TrimSpace piece = EmptyString)) as [Hblank|Hkept].
    + rewrite filter_cons_False by (by intros ?). apply IH.
    + rewrite filter_cons_True by done.
      destruct (Atoi (TrimSpace piece)) as [size|] eqn:Hatoi.
      * destruct (decide (size ≤ 0)) as [Hnonpos|Hpositive].
        -- split; [done|].
           intros (values & _ & Hall).
           apply Forall2_cons_inv_l in Hall as (v & ? & [Hv ?] & _ & _).
           rewrite Hatoi in Hv. injection Hv as <-. lia.
        -- rewrite IH. split.
           ++ intros (values & -> & Hall). exists (size :: values).
              split; [by rewrite <-app_assoc|].
              constructor; [split; [done|lia]|done].
           ++ intros (values & -> & Hall).
              apply Forall2_cons_inv_l in Hall
                as (v & values' & [Hv ?] & Hall & ->).
              rewrite Hatoi in Hv. injection Hv as <-.
              exists values'. split; [by rewrite <-app_assoc|done].
      * split; [done|].
        intros (values & _ & Hall).
        apply Forall2_cons_inv_l in Hall as (v & ? & [Hv ?] & _ & _).
        by rewrite Hatoi in Hv.
Qed.

Lemma pieces_values_unique kept : ∀ values1 values2,
  Forall2 (λ piece value, Atoi piece = Some value ∧ 0 < value) kept values1 →
  Forall2 (λ piece value, Atoi piece = Some value ∧ 0 < value) kept values2 →
  values1 = values2.
Proof.
  induction kept as [|piece kept IH]; intros values1 values2 H1 H2.
  - apply Forall2_nil_inv_l in H1 as ->. by apply Forall2_nil_inv_l in H2 as ->.
  - apply Forall2_cons_inv_l in H1 as (v1 & rest1 & [Hv1 _] & H1 & ->).
    apply Forall2_cons_inv_l in H2 as (v2 & rest2 & [Hv2 _] & H2 & ->).
    rewrite Hv1 in Hv2. injection Hv2 as <-. f_equal. by apply IH.
Qed.

(** The strings [parsePackageSizes] accepts, and what it reads in them. *)
Lemma parsePackageSizes_kept sizesStr sizes :
  parsePackageSizes sizesStr = (sizes, None)
  ↔ sizesStr ≠ EmptyString
    ∧ sizes ≠ []
    ∧ Forall2 (λ piece value, Atoi piece = Some value ∧ 0 < value)
        (keptPieces TrimSpace sizesStr) sizes.
Proof.
  unfold config.parsePackageSizes, keptPieces.
  destruct (decide (sizesStr = EmptyString)) as [->|Hne].
  { split; [done|]. by intros [? _]. }
  destruct (parsePieces (splitOn "," sizesStr) []) as [result|err] eqn:Hloop.
  - apply parsePieces_inl in Hloop as (values & -> & Hall). simpl.
    destruct (decide (length values = 0%nat)) as [Hnil|Hcons].
    + apply nil_length_inv in Hnil as ->. split; [done|].
      intros (_ & Hsizes & Hall').
      apply Forall2_length in Hall. apply Forall2_length in Hall'.
      destruct sizes; [done|]. simpl in *. lia.
    + split.
      * intros [= <-]. split; [done|]. split; [|done].
        intros ->. done.
      * intros (_ & _ & Hall'). do 2 f_equal.
        by eapply pieces_values_unique.
  - split; [done|]. intros (_ & _ & Hall).
    assert (parsePieces (splitOn "," sizesStr) [] = inl sizes) as Hinl.
    { apply parsePieces_inl. by exists sizes. }
    by rewrite Hloop in Hinl.
Qed.

(** X8: [parsePackageSizes] returns a list, without error, exactly when
    the string is not empty, at least one piece between the commas is
    not blank once trimmed and every such piece is an integer above 0;
    the list then holds the values of these pieces, in their order.  On
    every other string it returns an error, and no list with it. *)
Theorem parsePackageSizes_returns_iff sizesStr :
  (∀ sizes,
     parsePackageSizes sizesStr = (sizes, None)
     ↔ sizesStr ≠ EmptyString
       ∧ sizes ≠ []
       ∧ Forall2 (λ piece value, Atoi piece = Some value ∧ 0 < value)
           (keptPieces TrimSpace sizesStr) sizes)
  ∧ ((∃ sizes, parsePackageSizes sizesStr = (sizes, None))
     ∨ (∃ err, parsePackageSizes sizesStr = ([], Some err))).
Proof.
  split; [intros sizes; apply parsePackageSizes_kept|].
  unfold config.parsePackageSizes.
  destruct (decide (sizesStr = EmptyString)); [right; by eexists|].
  destruct (parsePieces _ _) as [result|err]; [|right; by eexists].
  destruct (decide (length result = 0%nat)); [right|left]; by eexists.
Qed.

(** What [parsePackageSizes] returns without error is a collection the
    constructor accepts. *)
Lemma parsePackageSizes_valid sizesStr sizes :
  parsePackageSizes sizesStr = (sizes, None) →
  sizes ≠ [] ∧ Forall (λ p, 0 < p) sizes.
Proof.
  intros (_ & Hne & Hall)%parsePackageSizes_kept. split; [done|].
  clear Hne. induction Hall as [|piece v kept values [_ Hv] _ IH];
    by constructor.
Qed.

(** X9: when [Load] returns a configuration, the sizes in it are never
    rejected by [NewOptimizer]: with them in the slice it is given, the
    constructor returns an optimizer holding a valid catalog, it does not
    panic. *)
Theorem Load_then_NewOptimizer env cfg (h : heap) input :
  config.Load TrimSpace atoiError env = (Some cfg, None) →
  contents h input = config.PackageSizes cfg →
  ∃ o h' sizes,
    NewOptimizer input h = (Returned o, h')
    ∧ catalog o h' sizes
    ∧ sizes ≡ₚ config.PackageSizes cfg.
Proof.
  unfold config.Load. intros Hload Hinput.
  destruct (parsePackageSizes _) as [sizes [err|]] eqn:Hparse; [done|].
  injection Hload as <-. simpl in Hinput.
  destruct (parsePackageSizes_valid _ _ Hparse) as [Hne Hpos].
  destruct (NewOptimizer input h) as [[o|msg] h'] eqn:Hnew.
  - destruct (NewOptimizer_catalog _ _ _ _ Hnew) as (sizes' & Hcat & _ & Hperm).
    exists o, h', sizes'. simpl. by rewrite <-Hinput.
  - rewrite NewOptimizer_spec in Hnew. cbv zeta in Hnew.
    rewrite Hinput in Hnew.
    by rewrite decide_False, decide_True in Hnew by done.
Qed.

End parsing_properties.

(** *** Decimal numerals, commas and [strconv.Atoi] *)

Lemma isDigit_pretty_char d : isDigit (pretty_N_char d) = true.
Proof. unfold pretty_N_char. by repeat case_match. Qed.

Lemma allDigits_pretty_go x : ∀ s, allDigits s → allDigits (pretty_N_go x s).
Proof.
  induction (N.lt_wf_0 x) as [x _ IH]; intros s Hs.
  destruct (decide (x = 0)%N) as [->|Hx]; [by rewrite pretty_N_go_0|].
  rewrite pretty_N_go_step by lia.
  apply IH; [apply N.div_lt; lia|].
  split; [apply isDigit_pretty_char|done].
Qed.

Lemma digitsValue_allDigits s : ∀ acc,
  allDigits s → digitsValue s acc = Some (parseDecimal s acc).
Proof.
  induction s as [|c s IH]; intros acc Hs; [done|].
  destruct Hs as [Hc Hs]. simpl. rewrite Hc. by apply IH.
Qed.

Lemma allDigits_lacks c s : isDigit c = false → allDigits s → lacks c s.
Proof.
  intros Hc. induction s as [|c' s IH]; [done|].
  intros [Hc' Hs]. split; [congruence|by apply IH].
Qed.

Lemma pretty_positive_digits (size : Z) :
  0 < size → allDigits (pretty size) ∧ pretty size ≠ EmptyString.
Proof.
  intros Hsize. split.
  - destruct size as [|p|p]; [lia| |lia].
    unfold pretty, pretty_Z, pretty, pretty_positive, pretty, pretty_N.
    rewrite decide_False by done. by apply allDigits_pretty_go.
  - intros Hnil. pose proof (sizeOfKey_pretty size Hsize) as Hkey.
    rewrite Hnil in Hkey. unfold sizeOfKey in Hkey. simpl in Hkey. lia.
Qed.

Lemma Atoi_pretty (size : Z) : 0 < size ≤ maxInt → Atoi (pretty size) = Some size.
Proof.
  intros [Hsize Hmax].
  destruct (pretty_positive_digits size Hsize) as [Hdigits Hne].
  pose proof (sizeOfKey_pretty size Hsize) as Hkey. unfold sizeOfKey in Hkey.
  unfold Atoi. destruct (pretty size) as [|c rest]; [done|].
  destruct Hdigits as [Hc Hrest].
  rewrite decide_False by (by intros ->).
  rewrite decide_False by (by intros ->).
  rewrite (digitsValue_allDigits (String c rest)) by done.
  rewrite Hkey. rewrite decide_True; [done|].
  unfold minInt, maxInt in *. lia.
Qed.

Lemma splitOn_lacks sep s : lacks sep s → splitOn sep s = [s].
Proof.
  induction s as [|c s IH]; [done|]. intros [Hc Hs]. simpl.
  rewrite decide_False by done. by rewrite IH.
Qed.

Lemma splitOn_append sep piece rest :
  lacks sep piece →
  splitOn sep (piece +:+ String sep rest) = piece :: splitOn sep rest.
Proof.
  induction piece as [|c piece IH]; intros Hpiece.
  - simpl. by rewrite decide_True.
  - destruct Hpiece as [Hc Hpiece]. simpl.
    rewrite decide_False by done. by rewrite IH.
Qed.

Lemma splitOn_joinComma pieces :
  pieces ≠ [] →
  Forall (lacks ","%char) pieces →
  splitOn ","%char (joinComma pieces) = pieces.
Proof.
  intros Hne Hall. induction Hall as [|piece pieces Hpiece Hall IH]; [done|].
  destruct pieces as [|piece' pieces]; [by apply splitOn_lacks|].
  change (joinComma (piece :: piece' :: pieces))
    with (piece +:+ String ","%char (joinComma (piece' :: pieces))).
  rewrite splitOn_append by done. by rewrite IH.
Qed.

Lemma joinComma_nonempty piece pieces :
  piece ≠ EmptyString → joinComma (piece :: pieces) ≠ EmptyString.
Proof.
  intros Hne. destruct pieces as [|piece' pieces]; [done|].
  change (joinComma (piece :: piece' :: pieces))
    with (piece +:+ String ","%char (joinComma (piece' :: pieces))).
  by destruct piece.
Qed.

Section round_trip.
Context (TrimSpace : string → string) (atoiError : string → error).

(** Numerals joined by commas are accepted and read back. *)
Lemma parsePackageSizes_numerals sizes :
  sizes ≠ [] →
  Forall (λ size, 0 < size ≤ maxInt) sizes →
  Forall (λ size, TrimSpace (pretty size) = pretty size) sizes →
  config.parsePackageSizes TrimSpace atoiError (joinComma (pretty <$> sizes))
  = (sizes, None).
Proof.
  intros Hne Hrange Htrim. apply parsePackageSizes_kept.
  assert (Forall (lacks ","%char) (pretty <$> sizes)) as Hlacks.
  { apply Forall_fmap. eapply Forall_impl; [exact Hrange|].
    intros size [Hsize _]. simpl.
    by apply allDigits_lacks, pretty_positive_digits. }
  split; [|split; [done|]].
  - destruct sizes as [|size sizes]; [done|].
    apply Forall_cons in Hrange as [[Hsize _] _].
    apply joinComma_nonempty. by apply pretty_positive_digits.
  - unfold keptPieces. rewrite splitOn_joinComma; [|by destruct sizes|done].
    clear Hne Hlacks.
    induction sizes as [|size sizes IH]; [constructor|].
    apply Forall_cons in Hrange as [Hsize Hrange].
    apply Forall_cons in Htrim as [Hfix Htrim].
    rewrite !fmap_cons, Hfix.
    rewrite filter_cons_True by (apply pretty_positive_digits; lia).
    constructor; [|by apply IH].
    split; [by apply Atoi_pretty|lia].
Qed.

(** X10: a non-empty list of positive sizes that fit an [int], written
    in decimal and joined by commas, is parsed back to the same list, as
    long as [strings.TrimSpace] leaves these decimal numerals as they
    are; the order and the repetitions of the list are kept. *)
Theorem parsePackageSizes_joinComma sizes :
  sizes ≠ [] →
  Forall (λ size, 0 < size ≤ maxInt) sizes →
  Forall (λ size, TrimSpace (pretty size) = pretty size) sizes →
  splitOn ","%char (joinComma (pretty <$> sizes)) = pretty <$> sizes
  ∧ config.parsePackageSizes TrimSpace atoiError
      (joinComma (pretty <$> sizes))
    = (sizes, None).
Proof.
  intros Hne Hrange Htrim. split.
  - apply splitOn_joinComma; [by destruct sizes|].
    apply Forall_fmap. eapply Forall_impl; [exact Hrange|].
    intros size [Hsize _]. simpl.
    by apply allDigits_lacks, pretty_positive_digits.
  - by apply parsePackageSizes_numerals.
Qed.

(** X11: when [PACKAGE_SIZES] is not set, or set to the empty string,
    [Load] returns the sizes 250, 500, 1000, 2000, with the port that
    [PORT] gives or 8080, provided [strings.TrimSpace] leaves these four
    numerals as they are. *)
Theorem Load_default_sizes env :
  config.Getenv env "PACKAGE_SIZES" = EmptyString →
  Forall (λ size, TrimSpace (pretty size) = pretty size)
    [250; 500; 1000; 2000] →
  config.Load TrimSpace atoiError env
  = (Some {| config.Port := config.getEnv env "PORT" "8080";
             config.PackageSizes := [250; 500; 1000; 2000] |}, None).
Proof.
  intros Hunset Htrim. unfold config.Load.
  assert (config.getEnv env "PACKAGE_SIZES" "250,500,1000,2000"
          = "250,500,1000,2000") as ->.
  { unfold config.getEnv. rewrite Hunset. by rewrite decide_False by (by intros ?). }
  change "250,500,1000,2000"
    with (joinComma (pretty <$> [250; 500; 1000; 2000])).
  rewrite parsePackageSizes_numerals; [done|done| |done].
  repeat constructor; by vm_compute.
Qed.

End round_trip.

Lemma parsePackageSizes_returns_iff_witness :
  config.parsePackageSizes trimASCII exampleAtoiError "250,, 500 ,1000"
  = ([250; 500; 1000], None)
  ↔ "250,, 500 ,1000" ≠ EmptyString
    ∧ [250; 500; 1000] ≠ []
    ∧ Forall2 (λ piece value, Atoi piece = Some value ∧ 0 < value)
        (keptPieces trimASCII "250,, 500 ,1000") [250; 500; 1000].
Proof.
  apply (proj1 (parsePackageSizes_returns_iff trimASCII exampleAtoiError
                  "250,, 500 ,1000") [250; 500; 1000]).
Defined.

Lemma Load_then_NewOptimizer_witness :
  let env : gmap string string := {[ "PACKAGE_SIZES" := "100, 200,500" ]} in
  let cfg := {| config.Port := "8080"; config.PackageSizes := [100; 200; 500] |} in
  config.Load trimASCII exampleAtoiError env = (Some cfg, None)
  ∧ contents (callerHeap [100; 200; 500]) 0%nat = config.PackageSizes cfg
  ∧ ∃ o h' sizes,
      NewOptimizer 0%nat (callerHeap [100; 200; 500]) = (Returned o, h')
      ∧ catalog o h' sizes
      ∧ sizes ≡ₚ config.PackageSizes cfg.
Proof.
  intros env cfg. split; [by vm_compute|]. split; [by vm_compute|].
  apply (Load_then_NewOptimizer trimASCII exampleAtoiError env cfg);
    by vm_compute.
Defined.

Lemma parsePackageSizes_joinComma_witness :
  [100; 200; 500] ≠ []
  ∧ Forall (λ size, 0 < size ≤ maxInt) [100; 200; 500]
  ∧ Forall (λ size, trimASCII (pretty size) = pretty size) [100; 200; 500]
  ∧ splitOn ","%char (joinComma (pretty <$> [100; 200; 500]))
    = pretty <$> [100; 200; 500]
  ∧ config.parsePackageSizes trimASCII exampleAtoiError
      (joinComma (pretty <$> [100; 200; 500]))
    = ([100; 200; 500], None).
Proof.
  split; [done|].
  split; [repeat constructor; by vm_compute|].
  split; [repeat constructor; by vm_compute|].
  apply (parsePackageSizes_joinComma trimASCII exampleAtoiError [100; 200; 500]).
  - done.
  - repeat constructor; by vm_compute.
  - repeat constructor; by vm_compute.
Defined.

Lemma Load_default_sizes_witness :
  config.Getenv {[ "PORT" := "3000" ]} "PACKAGE_SIZES" = EmptyString
  ∧ Forall (λ size, trimASCII (pretty size) = pretty size)
      [250; 500; 1000; 2000]
  ∧ config.Load trimASCII exampleAtoiError {[ "PORT" := "3000" ]}
    = (Some {| config.Port := config.getEnv {[ "PORT" := "3000" ]} "PORT" "8080";
               config.PackageSizes := [250; 500; 1000; 2000] |}, None).
Proof.
  split; [by vm_compute|].
  split; [repeat constructor; by vm_compute|].
  apply (Load_default_sizes trimASCII exampleAtoiError {[ "PORT" := "3000" ]}).
  - by vm_compute.
  - repeat constructor; by vm_compute.
Defined.

(** * Properties of handler.go *)

(** What [CalculateHandler] does for a handler whose optimizer holds a
    valid catalog, on every request. *)
Lemma CalculateHandler_run h (heap0 : heap) sizes c :
  catalog (api.optimizer h) heap0 sizes →
  api.CalculateHandler h c heap0
  = match Atoi (api.QueryParam c "qty") with
    | None =>
        (Returned ([], api.HTTPError api.StatusBadRequest
                         (if decide (api.QueryParam c "qty" = EmptyString)
                          then "missing 'qty' parameter"
                          else "invalid 'qty' parameter: must be an integer")),
         heap0)
    | Some quantity =>
        (Returned
           match (resultT sizes quantity).2 with
           | Some err =>
               (["Optimization error: " +:+ err],
                api.HTTPError api.StatusBadRequest
                  ("optimization error: " +:+ err))
           | None =>
               ([], api.JSON api.StatusOK
                      (api.ResultBody (resultT sizes quantity).1))
           end,
         (Optimize (api.optimizer h) quantity heap0).2)
    end.
Proof.
  intros Hcat. unfold api.CalculateHandler.
  destruct (decide (api.QueryParam c "qty" = EmptyString)) as [Hempty|Hne].
  { by rewrite Hempty. }
  destruct (Atoi (api.QueryParam c "qty")) as [quantity|]; [|done].
  pose proof (Optimize_spec _ _ _ quantity Hcat) as Hspec.
  erewrite bind_Returned by exact Hspec. rewrite Hspec. cbn [snd].
  by destruct (resultT sizes quantity) as [result [err|]].
Qed.

Lemma CalculateHandler_frame h (heap0 : heap) sizes c :
  catalog (api.optimizer h) heap0 sizes →
  catalog (api.optimizer h) (api.CalculateHandler h c heap0).2 sizes
  ∧ ∀ s l, heap0 !! s = Some l →
      (api.CalculateHandler h c heap0).2 !! s = Some l.
Proof.
  intros Hcat. rewrite (CalculateHandler_run h heap0 sizes c Hcat).
  destruct (Atoi _) as [quantity|]; cbn [snd]; [|done].
  split; [by apply Optimize_catalog|].
  intros s l Hs. by eapply Optimize_frame.
Qed.

Lemma serveAll_frame h sizes requests : ∀ (heap0 : heap),
  catalog (api.optimizer h) heap0 sizes →
  catalog (api.optimizer h) (serveAll h requests heap0) sizes
  ∧ ∀ s l, heap0 !! s = Some l → serveAll h requests heap0 !! s = Some l.
Proof.
  induction requests as [|c rest IH]; intros heap0 Hcat; [done|].
  destruct (CalculateHandler_frame h heap0 sizes c Hcat) as [Hcat1 Hframe1].
  destruct (IH _ Hcat1) as [Hcat2 Hframe2].
  simpl. split; [done|]. intros s l Hs. by apply Hframe2, Hframe1.
Qed.



(** X13: the sizes that [PackageSizesHandler] reports are the slice the
    handler was made with, as it was before [NewOptimizer] was called on
    it: in the order given, not the descending order of the catalog, and
    whatever [/calculate] requests were served in between. *)
Theorem PackageSizesHandler_reports_input input (heap0 : heap) o heap1
    requests c :
  NewOptimizer input heap0 = (Returned o, heap1) →
  let h := api.NewHandler o input in
  let heap2 := serveAll h requests heap1 in
  api.PackageSizesHandler h c heap2
  = (Returned (api.JSON api.StatusOK
       (api.SizesBody {[ "package_sizes" := contents heap0 input ]})),
     heap2).
Proof.
  intros Hnew h heap2.
  destruct (NewOptimizer_catalog _ _ _ _ Hnew) as (sizes & Hcat & _ & _).
  destruct (serveAll_frame h sizes requests heap1 Hcat) as [_ Hframe].
  assert (is_Some (heap0 !! input)) as [l Hl].
  { destruct (heap0 !! input) as [l|] eqn:Hin; [by eexists|].
    rewrite NewOptimizer_spec in Hnew. cbv zeta in Hnew.
    rewrite decide_True in Hnew; [done|].
    unfold contents. by rewrite lookup_total_alt, Hin. }
  pose proof (NewOptimizer_frame input heap0 input l Hl) as Hl1.
  rewrite Hnew in Hl1. cbn [snd] in Hl1.
  unfold api.PackageSizesHandler. cbn [api.packageSizes h api.NewHandler].
  rewrite (contents_Some heap2 input l) by (by apply Hframe).
  by rewrite (contents_Some heap0 input l).
Qed.

Lemma PackageSizesHandler_reports_input_witness :
  let h := api.NewHandler exampleOptimizer 0%nat in
  let requests : list api.Context :=
    [ {[ "qty" := ["1201"] ]}; ∅; {[ "qty" := ["-5"] ]} ] in
  NewOptimizer 0%nat (callerHeap exampleInput)
  = (Returned exampleOptimizer, exampleHeap)
  ∧ api.PackageSizesHandler h ∅ (serveAll h requests exampleHeap)
    = (Returned (api.JSON api.StatusOK
         (api.SizesBody
            {[ "package_sizes" := contents (callerHeap exampleInput) 0%nat ]})),
       serveAll h requests exampleHeap).
Proof.
  intros h requests. split; [by vm_compute|].
  apply (PackageSizesHandler_reports_input 0%nat (callerHeap exampleInput)
           exampleOptimizer exampleHeap requests ∅).
  by vm_compute.
Defined.

(** * How the results for different requests and catalogs compare *)








